(** * Gitpod authentication provider (extensions/gitpod/src/registerAuth.ts)

    A shallow embedding of the authentication core of the Gitpod extension:
    the PKCE generator, the event-to-promise adapter, the session validator,
    the wait on the secret store, [createSession] and [getSessions].

    Conventions.  A JavaScript string is held as a [string] of 8-bit
    characters, namely its UTF-8 form; a [Buffer] is a [list byte]; 32-bit
    words of SHA-256 are [Z] with the wrap-around written out; the secret
    store is a finite map from keys to strings; time is counted in
    milliseconds. *)

From Stdlib Require Import ZArith NArith List String Ascii Bool Lia.
From Stdlib Require Import Strings.Byte.
From stdpp Require Import base option gmap strings.

Import ListNotations.
Set Warnings "-register-all".
Local Open Scope Z_scope.
Local Open Scope string_scope.

(** ** Buffers and strings *)

Module Buffer.

Definition byte_val (b : byte) : Z := Z.of_N (Byte.to_N b).

Definition byte_of_Z (z : Z) : byte :=
  match Byte.of_N (Z.to_N (z mod 256)) with
  | Some b => b
  | None => Byte.x00
  end.

(** [Buffer.from(s, 'utf8')]: the string is already kept in UTF-8. *)
Definition utf8 (s : string) : list byte := list_byte_of_string s.

Definition hex_digit (n : Z) : ascii :=
  match String.get (Z.to_nat n) "0123456789abcdef" with
  | Some c => c
  | None => "0"%char
  end.

(** [buf.toString('hex')] *)
Fixpoint hex (l : list byte) : string :=
  match l with
  | [] => ""
  | b :: r =>
      String (hex_digit (byte_val b / 16))
        (String (hex_digit (byte_val b mod 16)) (hex r))
  end.

Definition b64_alphabet : string :=
  "ABCDEFGHIJKLMNOPQRSTUVWXYZabcdefghijklmnopqrstuvwxyz0123456789+/".

Definition b64_char (n : Z) : ascii :=
  match String.get (Z.to_nat n) b64_alphabet with
  | Some c => c
  | None => "="%char
  end.

(** The 24-bit group of three octets, and its four sextets. *)
Definition group3 (a b c : byte) : Z :=
  byte_val a * 65536 + byte_val b * 256 + byte_val c.

Definition sextet (k : Z) (n : Z) : ascii := b64_char ((n / 2 ^ k) mod 64).

(** [buf.toString('base64')]: the standard alphabet, padded with [=]. *)
Fixpoint base64 (l : list byte) : string :=
  match l with
  | [] => ""
  | [a] =>
      let n := group3 a Byte.x00 Byte.x00 in
      String (sextet 18 n) (String (sextet 12 n) "==")
  | [a; b] =>
      let n := group3 a b Byte.x00 in
      String (sextet 18 n) (String (sextet 12 n) (String (sextet 6 n) "="))
  | a :: b :: c :: r =>
      let n := group3 a b c in
      String (sextet 18 n) (String (sextet 12 n)
        (String (sextet 6 n) (String (sextet 0 n) (base64 r))))
  end.

(** No two of the 64 sextets share a character (a check that runs). *)
Definition b64_distinct : bool :=
  forallb (fun i => forallb (fun j =>
    implb (Ascii.eqb (b64_char (Z.of_nat i)) (b64_char (Z.of_nat j)))
          (Nat.eqb i j)) (seq 0 64)) (seq 0 64).

End Buffer.

(** ** SHA-256 (FIPS 180-4), as [crypto.createHash('sha256')] computes it *)

Module SHA256.
Import Buffer.

Definition w32 (x : Z) : Z := x mod 2 ^ 32.
Definition add32 (a b : Z) : Z := w32 (a + b).
Definition not32 (x : Z) : Z := Z.lxor x 4294967295.
Definition shr (n x : Z) : Z := Z.shiftr x n.
Definition rotr (n x : Z) : Z :=
  Z.lor (Z.shiftr x n) (w32 (Z.shiftl x (32 - n))).

Definition Ch (x y z : Z) : Z := Z.lxor (Z.land x y) (Z.land (not32 x) z).
Definition Maj (x y z : Z) : Z :=
  Z.lxor (Z.lxor (Z.land x y) (Z.land x z)) (Z.land y z).
Definition Sigma0 (x : Z) : Z :=
  Z.lxor (Z.lxor (rotr 2 x) (rotr 13 x)) (rotr 22 x).
Definition Sigma1 (x : Z) : Z :=
  Z.lxor (Z.lxor (rotr 6 x) (rotr 11 x)) (rotr 25 x).
Definition sigma0 (x : Z) : Z :=
  Z.lxor (Z.lxor (rotr 7 x) (rotr 18 x)) (shr 3 x).
Definition sigma1 (x : Z) : Z :=
  Z.lxor (Z.lxor (rotr 17 x) (rotr 19 x)) (shr 10 x).

(** The constants of FIPS 180-4, section 4.2.2: the first 32 bits of the
    fractional parts of the cube roots of the first 64 primes; and of
    section 5.3.3: the same of the square roots of the first 8 primes. *)
Definition is_prime (p : Z) : bool :=
  forallb (fun d => negb (Z.eqb (p mod Z.of_nat d) 0))
          (seq 2 (Z.to_nat p - 2)).

Definition primes : list Z :=
  List.filter is_prime (map Z.of_nat (seq 2 310)).

(** The integer cube root, one bit at a time from the top. *)
Definition cbrt (n : Z) : Z :=
  fold_left (fun r b => let c := r + 2 ^ Z.of_nat b in
                        if Z.leb (c * c * c) n then c else r)
            (rev (seq 0 40)) 0.

Definition frac32_cbrt (p : Z) : Z := cbrt (p * 2 ^ 96) mod 2 ^ 32.
Definition frac32_sqrt (p : Z) : Z := Z.sqrt (p * 2 ^ 64) mod 2 ^ 32.

Definition K : list Z := Eval vm_compute in map frac32_cbrt primes.

Record state : Type := State {
  ha : Z; hb : Z; hc : Z; hd : Z; he : Z; hf : Z; hg : Z; hh : Z
}.

Definition H0 : state :=
  Eval vm_compute in
  match map frac32_sqrt (firstn 8 primes) with
  | [a; b; c; d; e; f; g; h] => State a b c d e f g h
  | _ => State 0 0 0 0 0 0 0 0
  end.

(** Padding: a 1 bit, zeros up to 56 mod 64, the bit length on 64 bits. *)
Definition be_bytes (n : nat) (x : Z) : list byte :=
  map (fun i => byte_of_Z (x / 2 ^ (8 * Z.of_nat i))) (rev (seq 0 n)).

Definition pad (msg : list byte) : list byte :=
  let len := Z.of_nat (List.length msg) in
  let k := Z.to_nat ((55 - len) mod 64) in
  msg ++ [Byte.x80] ++ repeat Byte.x00 k ++ be_bytes 8 (8 * len).

(** Big-endian 32-bit words of a byte string. *)
Fixpoint words (l : list byte) : list Z :=
  match l with
  | a :: b :: c :: d :: r =>
      (byte_val a * 16777216 + byte_val b * 65536
       + byte_val c * 256 + byte_val d) :: words r
  | _ => []
  end.

Fixpoint blocks (n : nat) (ws : list Z) : list (list Z) :=
  match n with
  | O => []
  | S n' => firstn 16 ws :: blocks n' (skipn 16 ws)
  end.

(** The message schedule: 16 words extended to 64. *)
Fixpoint schedule (n : nat) (w : list Z) : list Z :=
  match n with
  | O => w
  | S n' =>
      let t := List.length w in
      let at_ (i : nat) := nth (t - i) w 0 in
      schedule n'
        (w ++ [add32 (add32 (sigma1 (at_ 2%nat)) (at_ 7%nat))
                     (add32 (sigma0 (at_ 15%nat)) (at_ 16%nat))])
  end.

Definition round (s : state) (kw : Z * Z) : state :=
  let t1 := add32 (add32 (add32 (hh s) (Sigma1 (he s)))
                         (add32 (Ch (he s) (hf s) (hg s)) (fst kw)))
                  (snd kw) in
  let t2 := add32 (Sigma0 (ha s)) (Maj (ha s) (hb s) (hc s)) in
  State (add32 t1 t2) (ha s) (hb s) (hc s)
        (add32 (hd s) t1) (he s) (hf s) (hg s).

Definition compress (s : state) (block : list Z) : state :=
  let r := fold_left round (combine K (schedule 48 block)) s in
  State (add32 (ha s) (ha r)) (add32 (hb s) (hb r))
        (add32 (hc s) (hc r)) (add32 (hd s) (hd r))
        (add32 (he s) (he r)) (add32 (hf s) (hf r))
        (add32 (hg s) (hg r)) (add32 (hh s) (hh r)).

Definition output (s : state) : list byte :=
  be_bytes 4 (ha s) ++ be_bytes 4 (hb s) ++ be_bytes 4 (hc s)
  ++ be_bytes 4 (hd s) ++ be_bytes 4 (he s) ++ be_bytes 4 (hf s)
  ++ be_bytes 4 (hg s) ++ be_bytes 4 (hh s).

(** [crypto.createHash('sha256').update(msg).digest()] *)
Definition digest (msg : list byte) : list byte :=
  let p := pad msg in
  output (fold_left compress
            (blocks (Nat.div (List.length p) 64) (words p)) H0).

End SHA256.

(** ** JavaScript values, completions and [JSON.parse] *)

Module JS.

(** The values the provider handles: what [JSON.parse] builds, [undefined],
    and function objects (named after their binding). Numbers keep their
    source text. An object keeps its properties in source order. *)
Inductive JSValue : Type :=
| JUndefined
| JNull
| JBool (b : bool)
| JNumber (lexeme : string)
| JString (s : string)
| JArray (elems : list JSValue)
| JObject (props : list (string * JSValue))
| JFunction (name : string).

(** What a [throw] or a rejected promise carries. *)
Inductive Reason : Type :=
| SyntaxError
| TypeError
| Thrown (v : JSValue)
| RpcError (message : string).

Inductive Completion (A : Type) : Type :=
| Normal (a : A)
| Throw (r : Reason).
Arguments Normal {A} a.
Arguments Throw {A} r.

(** Sequencing: a [throw] skips the rest. *)
#[export] Instance completion_ret : MRet Completion := @Normal.
#[export] Instance completion_bind : MBind Completion :=
  fun A B (k : A -> Completion B) (c : Completion A) =>
    match c with
    | Normal a => k a
    | Throw r => Throw r
    end.

(** [a || b] on [string | undefined]: the empty string is falsy too. *)
Definition or_else (a : option string) (b : string) : string :=
  match a with
  | Some (String c r) => String c r
  | Some EmptyString => b
  | None => b
  end.

Definition dquote : ascii := ascii_of_nat 34.

(** Writing aid for JSON texts: every apostrophe stands for a double quote. *)
Fixpoint dq (s : string) : string :=
  match s with
  | EmptyString => EmptyString
  | String c r => String (if Ascii.eqb c "'"%char then dquote else c) (dq r)
  end.

Definition is_ws (c : ascii) : bool :=
  Ascii.eqb c " "%char || Ascii.eqb c (ascii_of_nat 9)
  || Ascii.eqb c (ascii_of_nat 10) || Ascii.eqb c (ascii_of_nat 13).

Fixpoint skip_ws (s : string) : string :=
  match s with
  | String c r => if is_ws c then skip_ws r else s
  | EmptyString => s
  end.

Definition is_digit (c : ascii) : bool :=
  (48 <=? nat_of_ascii c)%nat && (nat_of_ascii c <=? 57)%nat.

Fixpoint digits (s : string) : string * string :=
  match s with
  | String c r =>
      if is_digit c then let '(d, t) := digits r in (String c d, t)
      else (EmptyString, s)
  | EmptyString => (EmptyString, s)
  end.

Definition hex_val (c : ascii) : option nat :=
  let n := nat_of_ascii c in
  if is_digit c then Some (n - 48)%nat
  else if (97 <=? n)%nat && (n <=? 102)%nat then Some (n - 87)%nat
  else if (65 <=? n)%nat && (n <=? 70)%nat then Some (n - 55)%nat
  else None.

(** The UTF-8 form of a code point (of a code unit, for a surrogate that
    stands alone). *)
Definition utf8_of_code (n : N) : string :=
  if (n <? 128)%N then String (ascii_of_N n) EmptyString
  else if (n <? 2048)%N then
    String (ascii_of_N (192 + n / 64))
      (String (ascii_of_N (128 + n mod 64)) EmptyString)
  else if (n <? 65536)%N then
    String (ascii_of_N (224 + n / 4096))
      (String (ascii_of_N (128 + (n / 64) mod 64))
         (String (ascii_of_N (128 + n mod 64)) EmptyString))
  else
    String (ascii_of_N (240 + n / 262144))
      (String (ascii_of_N (128 + (n / 4096) mod 64))
         (String (ascii_of_N (128 + (n / 64) mod 64))
            (String (ascii_of_N (128 + n mod 64)) EmptyString))).

Definition hex4 (h1 h2 h3 h4 : ascii) : option N :=
  match hex_val h1, hex_val h2, hex_val h3, hex_val h4 with
  | Some a, Some b, Some c, Some d =>
      Some (N.of_nat (a * 4096 + b * 256 + c * 16 + d))
  | _, _, _, _ => None
  end.

(** The code point of a surrogate pair: a high surrogate [hi], then the
    escape [\uXXXX] of a low surrogate. *)
Definition pair_code (hi : N) (b1 b2 h1 h2 h3 h4 : ascii) : option N :=
  if (55296 <=? hi)%N && (hi <? 56320)%N
     && Ascii.eqb b1 "\"%char && Ascii.eqb b2 "u"%char then
    match hex4 h1 h2 h3 h4 with
    | Some lo =>
        if (56320 <=? lo)%N && (lo <? 57344)%N
        then Some (65536 + (hi - 55296) * 1024 + (lo - 56320))%N
        else None
    | None => None
    end
  else None.

Definition simple_escape (e : ascii) : option ascii :=
  if Ascii.eqb e dquote then Some dquote
  else if Ascii.eqb e "\"%char then Some "\"%char
  else if Ascii.eqb e "/"%char then Some "/"%char
  else if Ascii.eqb e "b"%char then Some (ascii_of_nat 8)
  else if Ascii.eqb e "f"%char then Some (ascii_of_nat 12)
  else if Ascii.eqb e "n"%char then Some (ascii_of_nat 10)
  else if Ascii.eqb e "r"%char then Some (ascii_of_nat 13)
  else if Ascii.eqb e "t"%char then Some (ascii_of_nat 9)
  else None.

(** The characters of a string literal, after its opening quote. *)
Fixpoint parse_string (s : string) : option (string * string) :=
  match s with
  | EmptyString => None
  | String c r =>
      if Ascii.eqb c dquote then Some (EmptyString, r)
      else if Ascii.eqb c "\"%char then
        match r with
        | String e r1 =>
            match simple_escape e with
            | Some x =>
                match parse_string r1 with
                | Some (str, t) => Some (String x str, t)
                | None => None
                end
            | None =>
                match r1 with
                | String h1 (String h2 (String h3 (String h4 r2))) =>
                    match Ascii.eqb e "u"%char, hex4 h1 h2 h3 h4 with
                    | true, Some unit =>
                        let alone :=
                          match parse_string r2 with
                          | Some (str, t) => Some (utf8_of_code unit ++ str, t)
                          | None => None
                          end in
                        match r2 with
                        | String b1 (String b2 (String h5 (String h6
                            (String h7 (String h8 r3))))) =>
                            match pair_code unit b1 b2 h5 h6 h7 h8 with
                            | Some point =>
                                match parse_string r3 with
                                | Some (str, t) =>
                                    Some (utf8_of_code point ++ str, t)
                                | None => None
                                end
                            | None => alone
                            end
                        | _ => alone
                        end
                    | _, _ => None
                    end
                | _ => None
                end
            end
        | EmptyString => None
        end
      else if (nat_of_ascii c <? 32)%nat then None
      else
        match parse_string r with
        | Some (str, t) => Some (String c str, t)
        | None => None
        end
  end.

(** A number: an optional minus, an integer part without a leading zero,
    an optional fraction, an optional exponent. *)
Definition parse_int (s : string) : option (string * string) :=
  match digits s with
  | (EmptyString, _) => None
  | (String "0"%char EmptyString, t) => Some ("0", t)
  | (String "0"%char _, _) => None
  | (d, t) => Some (d, t)
  end.

Definition parse_frac (s : string) : option (string * string) :=
  match s with
  | String "."%char r =>
      match digits r with
      | (EmptyString, _) => None
      | (d, t) => Some (String "."%char d, t)
      end
  | _ => Some (EmptyString, s)
  end.

Definition parse_exp (s : string) : option (string * string) :=
  match s with
  | String c r =>
      if Ascii.eqb c "e"%char || Ascii.eqb c "E"%char then
        let '(sign, r1) :=
          match r with
          | String "+"%char r1 => ("+", r1)
          | String "-"%char r1 => ("-", r1)
          | _ => (EmptyString, r)
          end in
        match digits r1 with
        | (EmptyString, _) => None
        | (d, t) => Some (String c (sign ++ d), t)
        end
      else Some (EmptyString, s)
  | EmptyString => Some (EmptyString, s)
  end.

Definition parse_number (s : string) : option (JSValue * string) :=
  let '(sign, r) :=
    match s with
    | String "-"%char r => ("-", r)
    | _ => (EmptyString, s)
    end in
  match parse_int r with
  | Some (i, r1) =>
      match parse_frac r1 with
      | Some (f, r2) =>
          match parse_exp r2 with
          | Some (e, r3) => Some (JNumber (sign ++ i ++ f ++ e), r3)
          | None => None
          end
      | None => None
      end
  | None => None
  end.

Definition parse_literal (s : string) : option (JSValue * string) :=
  match s with
  | String "t" (String "r" (String "u" (String "e" r))) =>
      Some (JBool true, r)
  | String "f" (String "a" (String "l" (String "s" (String "e" r)))) =>
      Some (JBool false, r)
  | String "n" (String "u" (String "l" (String "l" r))) =>
      Some (JNull, r)
  | _ => parse_number s
  end.

(** Recursive descent; [fuel] bounds the number of nested calls, and
    [JSON_parse] starts it at twice the length of the text, plus two (a
    value, an element or a member takes at least one character). *)
Fixpoint parse_value (fuel : nat) (s : string) : option (JSValue * string) :=
  match fuel with
  | O => None
  | S f =>
      match skip_ws s with
      | String "{"%char r =>
          match skip_ws r with
          | String "}"%char t => Some (JObject [], t)
          | t => parse_members f t []
          end
      | String "["%char r =>
          match skip_ws r with
          | String "]"%char t => Some (JArray [], t)
          | t => parse_elements f t []
          end
      | String c r =>
          if Ascii.eqb c dquote then
            match parse_string r with
            | Some (str, t) => Some (JString str, t)
            | None => None
            end
          else parse_literal (String c r)
      | EmptyString => None
      end
  end
with parse_elements (fuel : nat) (s : string) (acc : list JSValue)
  : option (JSValue * string) :=
  match fuel with
  | O => None
  | S f =>
      match parse_value f s with
      | Some (v, r) =>
          match skip_ws r with
          | String ","%char t => parse_elements f t (v :: acc)
          | String "]"%char t => Some (JArray (rev (v :: acc)), t)
          | _ => None
          end
      | None => None
      end
  end
with parse_members (fuel : nat) (s : string) (acc : list (string * JSValue))
  : option (JSValue * string) :=
  match fuel with
  | O => None
  | S f =>
      match skip_ws s with
      | String c r =>
          if Ascii.eqb c dquote then
            match parse_string r with
            | Some (k, r1) =>
                match skip_ws r1 with
                | String ":"%char r2 =>
                    match parse_value f r2 with
                    | Some (v, r3) =>
                        match skip_ws r3 with
                        | String ","%char t =>
                            parse_members f t ((k, v) :: acc)
                        | String "}"%char t =>
                            Some (JObject (rev ((k, v) :: acc)), t)
                        | _ => None
                        end
                    | None => None
                    end
                | _ => None
                end
            | None => None
            end
          else None
      | EmptyString => None
      end
  end.

(** [JSON.parse(text)]: the value, or a [SyntaxError]. *)
Definition JSON_parse (text : string) : Completion JSValue :=
  match parse_value (2 * String.length text + 2) text with
  | Some (v, r) =>
      match skip_ws r with
      | EmptyString => Normal v
      | _ => Throw SyntaxError
      end
  | None => Throw SyntaxError
  end.

(** [v.k] for a property name [k] that no prototype defines: the last
    own property of that name, [undefined] when there is none, and a
    [TypeError] on [null] and [undefined]. *)
Fixpoint lookup_prop (k : string) (props : list (string * JSValue))
  : JSValue :=
  match props with
  | [] => JUndefined
  | (k', v) :: r =>
      match lookup_prop k r with
      | JUndefined => if String.eqb k k' then v else JUndefined
      | found => found
      end
  end.

Definition get_prop (v : JSValue) (k : string) : Completion JSValue :=
  match v with
  | JUndefined | JNull => Throw TypeError
  | JObject props => Normal (lookup_prop k props)
  | _ => Normal JUndefined
  end.

Fixpoint contains (x s : string) : bool :=
  String.prefix x s
  || match s with
     | EmptyString => false
     | String _ r => contains x r
     end.

(** [recv.includes(x)] for a string [x]: [Array.prototype.includes] on an
    array, [String.prototype.includes] on a string, a [TypeError] on
    everything else (no method of that name, or no property access). *)
Definition includes (recv : JSValue) (x : string) : Completion bool :=
  match recv with
  | JArray elems =>
      Normal (existsb (fun e => match e with
                                | JString s => String.eqb s x
                                | _ => false
                                end) elems)
  | JString s => Normal (contains x s)
  | _ => Throw TypeError
  end.

(** [l.every(f)] and [l.filter(f)] with a callback that may throw. *)
Fixpoint every {A} (f : A -> Completion bool) (l : list A)
  : Completion bool :=
  match l with
  | [] => Normal true
  | x :: r => b ← f x; if b : bool then every f r else Normal false
  end.

Fixpoint filter {A} (f : A -> Completion bool) (l : list A)
  : Completion (list A) :=
  match l with
  | [] => Normal []
  | x :: r =>
      b ← f x; r' ← filter f r;
      Normal (if b : bool then x :: r' else r')
  end.

End JS.

(** ** Promises *)

Module Async.
Import JS.

Inductive Settled : Type :=
| Fulfilled (v : JSValue)
| Rejected (r : Reason).

(** A promise of one run, by what becomes of it: when (in milliseconds)
    and how it settles; [None] when it stays pending for ever. *)
Definition Promise : Type := option (N * Settled).

(** An element handed to [Promise.race]: a promise, or any other value. *)
Inductive Entry : Type :=
| OfPromise (p : Promise)
| OfValue (v : JSValue).

(** [Promise.resolve(x)] at time [now]: a promise is followed (its
    reaction cannot run before [now]); a value that is no thenable
    gives a promise fulfilled with it. *)
Definition Promise_resolve (now : N) (e : Entry) : Promise :=
  match e with
  | OfPromise (Some (t, s)) => Some (N.max t now, s)
  | OfPromise None => None
  | OfValue v => Some (now, Fulfilled v)
  end.

(** Of two promises the one that settles first; the left one on a tie,
    reactions being queued in the order of the array. *)
Definition earlier (a b : Promise) : Promise :=
  match a, b with
  | Some (ta, _), Some (tb, _) => if (ta <=? tb)%N then a else b
  | Some _, None => a
  | None, _ => b
  end.

(** [Promise.race(entries)] called at time [now]. *)
Definition Promise_race (now : N) (entries : list Entry) : Promise :=
  fold_right earlier None (map (Promise_resolve now) entries).

(** [new Promise((_, reject) => setTimeout(() => reject(reason), delay))]
    created at time [now]; the callback runs [lag] late. *)
Definition rejectAfter (now delay lag : N) (reason : Reason) : Promise :=
  Some ((now + delay + lag)%N, Rejected reason).

End Async.

(** ** The event-to-promise adapter: [promiseFromEvent], lines 60-88

    The adapter is a small machine: the inner promise made by
    [new Promise], the subscription to the event, the queue of reactions,
    and the promise returned by [.then]. Its inputs are the event firing,
    [cancel.fire()], and the run of the next queued reaction. *)

Module PromiseFromEvent.
Import JS Async.

(** One call of an adapter: the calls it makes to [resolve] and [reject],
    in order, and how it ends: it returns, it throws, or it returns a
    promise that is rejected later. The values given to [resolve] are
    plain values, as in the one adapter of this file (a key). *)
Inductive Call : Type :=
| CallResolve (v : JSValue)
| CallReject (r : Reason).

Inductive Ending : Type :=
| Returns
| Throws (r : Reason)
| ReturnsRejected (r : Reason).

Record Run : Type := { calls : list Call; ending : Ending }.

Definition PromiseAdapter (T : Type) : Type := T -> Run.

Definition passthrough : PromiseAdapter JSValue :=
  fun value => {| calls := [CallResolve value]; ending := Returns |}.

(** Queued reactions: the handlers of [.then(...)] on the inner promise,
    and the [.catch(reject)] on what the adapter returned. *)
Inductive Job : Type :=
| ThenJob (s : Settled)
| CatchJob (r : Reason).

Record State : Type := {
  inner : option Settled;      (* the promise built by [new Promise] *)
  subscribed : bool;           (* [subscription] is live *)
  jobs : list Job;             (* the microtask queue *)
  promise : option Settled;    (* the promise that is returned *)
  disposals : nat;             (* calls of [subscription.dispose()] *)
  settlements : nat            (* times the returned promise was settled *)
}.

(** [promiseFromEvent(event, adapter)] right after the call. *)
Definition init : State :=
  {| inner := None; subscribed := true; jobs := []; promise := None;
     disposals := 0; settlements := 0 |}.

(** [resolve] and [reject] of the inner promise: the first call settles
    it and queues the [then] reaction, later calls do nothing. *)
Definition settle (s : Settled) (st : State) : State :=
  match inner st with
  | Some _ => st
  | None =>
      {| inner := Some s; subscribed := subscribed st;
         jobs := jobs st ++ [ThenJob s]; promise := promise st;
         disposals := disposals st; settlements := settlements st |}
  end.

Definition resolve (v : JSValue) : State -> State := settle (Fulfilled v).
Definition reject (r : Reason) : State -> State := settle (Rejected r).

Definition do_call (st : State) (c : Call) : State :=
  match c with
  | CallResolve v => resolve v st
  | CallReject r => reject r st
  end.

(** The subscribed listener:
    [try { Promise.resolve(adapter(value, resolve, reject)).catch(reject) }
     catch (error) { reject(error) }] *)
Definition listener {T} (adapter : PromiseAdapter T) (value : T)
    (st : State) : State :=
  let st' := fold_left do_call (calls (adapter value)) st in
  match ending (adapter value) with
  | Returns => st'
  | Throws error => reject error st'
  | ReturnsRejected r =>
      {| inner := inner st'; subscribed := subscribed st';
         jobs := jobs st' ++ [CatchJob r]; promise := promise st';
         disposals := disposals st'; settlements := settlements st' |}
  end.

(** The two handlers of [.then]: dispose the subscription, then pass the
    result on (or throw the error again). *)
Definition then_handler (s : Settled) (st : State) : State :=
  {| inner := inner st; subscribed := false; jobs := jobs st;
     promise := match promise st with
                | None => Some s
                | Some old => Some old
                end;
     disposals := S (disposals st);
     settlements := S (settlements st) |}.

Inductive Input (T : Type) : Type :=
| Emit (value : T)      (* the event fires *)
| Cancel                (* [cancel.fire()] *)
| Tick.                 (* the next queued reaction runs *)
Arguments Emit {T} value.
Arguments Cancel {T}.
Arguments Tick {T}.

Definition pop (st : State) (q : list Job) : State :=
  {| inner := inner st; subscribed := subscribed st; jobs := q;
     promise := promise st; disposals := disposals st;
     settlements := settlements st |}.

Definition step {T} (adapter : PromiseAdapter T) (st : State)
    (i : Input T) : State :=
  match i with
  | Emit value => if subscribed st then listener adapter value st else st
  | Cancel => reject (Thrown JUndefined) st
  | Tick =>
      match jobs st with
      | [] => st
      | ThenJob s :: q => then_handler s (pop st q)
      | CatchJob r :: q => reject r (pop st q)
      end
  end.

Definition run {T} (adapter : PromiseAdapter T) (st : State)
    (ins : list (Input T)) : State :=
  fold_left (step adapter) ins st.

(** Running the queued reactions to the end of the turn. *)
Fixpoint ticks {T} (adapter : PromiseAdapter T) (n : nat) (st : State)
  : State :=
  match n with
  | O => st
  | S n' => ticks adapter n' (step adapter st Tick)
  end.

Definition drain {T} (adapter : PromiseAdapter T) (st : State) : State :=
  ticks adapter (S (List.length (jobs st))) st.

(** The [then] reactions waiting in the queue. *)
Fixpoint then_jobs (q : list Job) : list Settled :=
  match q with
  | [] => []
  | ThenJob s :: r => s :: then_jobs r
  | CatchJob _ :: r => then_jobs r
  end.

(** The three stages of an adapter: pending; settled with its [then]
    reaction queued; settled, disposed and passed on. *)
Inductive Stage (st : State) : Prop :=
| Waiting :
    inner st = None -> then_jobs (jobs st) = [] -> promise st = None ->
    disposals st = 0%nat -> settlements st = 0%nat ->
    subscribed st = true -> Stage st
| Settling (s : Settled) :
    inner st = Some s -> then_jobs (jobs st) = [s] -> promise st = None ->
    disposals st = 0%nat -> settlements st = 0%nat ->
    subscribed st = true -> Stage st
| Finished (s : Settled) :
    inner st = Some s -> then_jobs (jobs st) = [] -> promise st = Some s ->
    disposals st = 1%nat -> settlements st = 1%nat ->
    subscribed st = false -> Stage st.

(** The exits: the result with which an input settles a pending adapter,
    when it does so at once. A cancellation rejects with no reason; an
    event settles with the first call the adapter makes to [resolve] or
    [reject], or with the error it throws before any such call. *)
Definition exit_of {T} (adapter : PromiseAdapter T) (i : Input T)
  : option Settled :=
  match i with
  | Cancel => Some (Rejected (Thrown JUndefined))
  | Emit value =>
      match calls (adapter value), ending (adapter value) with
      | CallResolve v :: _, _ => Some (Fulfilled v)
      | CallReject r :: _, _ => Some (Rejected r)
      | [], Throws error => Some (Rejected error)
      | [], _ => None
      end
  | Tick => None
  end.

(** What bounds the reactions still to run. *)
Definition pending_work (st : State) : nat :=
  (List.length (jobs st) + match inner st with None => 1 | Some _ => 0 end)%nat.

End PromiseFromEvent.

(** ** The session validator: [resolveAuthenticationSession], lines 191-238 *)

Module Validator.
Import JS Buffer.

Definition baseURL : string :=
  "https://server-vscode-ouath2.staging.gitpod-dev.com".

Record User : Type := { user_id : string; user_name : option string }.

Record Account : Type := { label : option string; account_id : string }.

Record AuthenticationSession : Type := {
  id : string;
  account : Account;
  scopes : list string;
  accessToken : string
}.

(** What the remote service answers to a call: a result, an error, or
    nothing at all. *)
Inductive Reply (A : Type) : Type :=
| ReplyOk (a : A)
| ReplyError (message : string)
| NoReply.
Arguments ReplyOk {A} a.
Arguments ReplyError {A} message.
Arguments NoReply {A}.

Record Server : Type := {
  getLoggedInUser : Reply User;
  getGitpodTokenScopes : string -> Reply (list string)
}.

(** What can be observed of one validation: the transport opened, a call
    issued, an [await] on a call answered (with a result or an error), the
    transport closed. *)
Inductive Event : Type :=
| OpenTransport (url origin authorization : string)
| Issue (method : string) (args : list string)
| Completed (method : string) (ok : bool)
| CloseTransport.

(** An [async] body: it runs against the log of events so far, and
    returns, throws, or never gets past an [await]. *)
Inductive Result (A : Type) : Type :=
| Returned (a : A)
| Raised (r : Reason)
| Hangs.
Arguments Returned {A} a.
Arguments Raised {A} r.
Arguments Hangs {A}.

Definition M (A : Type) : Type := list Event -> Result A * list Event.

#[export] Instance M_ret : MRet M := fun A a log => (Returned a, log).
#[export] Instance M_bind : MBind M :=
  fun A B (k : A -> M B) (m : M A) log =>
    match m log with
    | (Returned a, log') => k a log'
    | (Raised r, log') => (Raised r, log')
    | (Hangs, log') => (Hangs, log')
    end.

Definition raise {A} (r : Reason) : M A := fun log => (Raised r, log).
Definition hang {A} : M A := fun log => (Hangs, log).

Definition emit (e : Event) : M unit :=
  fun log => (Returned tt, (log ++ [e])%list).

(** A pending call: its method and what the service will answer. *)
Record Pending (A : Type) : Type := { method : string; reply : Reply A }.
Arguments method {A} _.
Arguments reply {A} _.

Definition call {A} (name : string) (args : list string) (r : Reply A)
  : M (Pending A) :=
  _ ← emit (Issue name args); mret {| method := name; reply := r |}.

Definition await {A} (p : Pending A) : M A :=
  match reply p with
  | ReplyOk a => _ ← emit (Completed (method p) true); mret a
  | ReplyError message =>
      _ ← emit (Completed (method p) false); raise (RpcError message)
  | NoReply => hang
  end.

(** [baseURL.replace('https', 'wss')] *)
Definition wssURL : string :=
  "wss" ++ String.substring 5 (String.length baseURL - 5) baseURL.

Record WebSocket : Type := { address : string }.

(** The [async] block bound to [pendignWebSocket]: it has no [await], so
    it runs at once and its promise is resolved with the socket; the
    [await] on it at line 228 hands the socket over. *)
Definition openWebSocket (accessToken : string) : M WebSocket :=
  _ ← emit (OpenTransport wssURL baseURL ("Bearer " ++ accessToken));
  mret {| address := wssURL |}.

Definition close (webSocket : WebSocket) : M unit := emit CloseTransport.

Definition resolveAuthenticationSession (server : Server)
    (scopes : list string) (accessToken : string)
  : M AuthenticationSession :=
  pendignWebSocket ← openWebSocket accessToken;
  pendingUser ← call "getLoggedInUser" [] (getLoggedInUser server);
  user ← await pendingUser;
  let hash := hex (SHA256.digest (utf8 accessToken)) in
  _ ← call "getGitpodTokenScopes" [hash] (getGitpodTokenScopes server hash);
  webSocket ← mret pendignWebSocket;
  _ ← close webSocket;
  mret {| id := "gitpod.user";
          account := {| label := user_name user;
                        account_id := user_id user |};
          scopes := scopes;
          accessToken := accessToken |}.

(** Shorthands for the events of a run. *)
Definition tokenHash (accessToken : string) : string :=
  hex (SHA256.digest (utf8 accessToken)).

Definition opening (accessToken : string) : Event :=
  OpenTransport wssURL baseURL ("Bearer " ++ accessToken).

(** Reading a log: how often the transport was closed, and whether the
    reply to a call was awaited before the first close. *)
Definition closes (log : list Event) : nat :=
  List.length (List.filter (fun e => match e with
                                     | CloseTransport => true
                                     | _ => false
                                     end) log).

Fixpoint completed_before_close (name : string) (log : list Event) : bool :=
  match log with
  | [] => false
  | CloseTransport :: _ => false
  | Completed m _ :: r =>
      String.eqb m name || completed_before_close name r
  | _ :: r => completed_before_close name r
  end.

End Validator.

(** ** The authentication provider: [generatePKCE] (lines 94-98),
    [hasScopes] (240-242), [waitForAuthenticationSession] (250-269),
    [createSession] (271-314) and [getSessions] (323-330) *)

Module Provider.
Import JS Buffer Async PromiseFromEvent.

(** [crypto.randomBytes(n)], reading the entropy source. *)
Definition randomBytes (n : nat) (entropy : nat -> byte) : list byte :=
  map entropy (seq 0 n).

Record PKCE : Type := { codeVerifier : string; codeChallenge : string }.

Definition generatePKCE (entropy : nat -> byte) : PKCE :=
  let codeVerifier := base64 (randomBytes 32 entropy) in
  let codeChallenge := base64 (SHA256.digest (utf8 codeVerifier)) in
  {| codeVerifier := codeVerifier; codeChallenge := codeChallenge |}.

Definition hasScopes (session : JSValue) (scopes : option (list string))
  : Completion bool :=
  match scopes with
  | None => Normal true
  | Some l =>
      every (fun scope => granted ← get_prop session "scopes";
                          includes granted scope) l
  end.

(** The secret store: [context.secrets]. *)
Definition authSessionKey : string := "gitpod.authSession".

Inductive SecretOp : Type :=
| Store (key value : string)
| Delete (key : string).

Definition op_key (op : SecretOp) : string :=
  match op with
  | Store key _ => key
  | Delete key => key
  end.

Definition apply_op (op : SecretOp) (secrets : gmap string string)
  : gmap string string :=
  match op with
  | Store key value => <[key := value]> secrets
  | Delete key => delete key secrets
  end.

(** [getSessions]; [scopes] is [None] when the caller passes no array
    ([undefined], the one falsy value an array parameter can hold: an
    array, empty or not, is truthy). *)
Definition getSessions (secrets : gmap string string)
    (scopes : option (list string)) : Completion (list JSValue) :=
  let sessions : list JSValue := [] in
  match scopes with
  | None => Normal sessions
  | Some _ =>
      session ← JSON_parse (or_else (secrets !! authSessionKey) "");
      JS.filter (fun session => hasScopes session scopes)
                (sessions ++ [session])%list
  end.

(** The adapter of [waitForAuthenticationSession], on the key of a
    [SecretStorageChangeEvent]. *)
Definition authAdapter : PromiseAdapter string :=
  fun key =>
    if negb (String.eqb key authSessionKey)
    then {| calls := [CallReject (Thrown (JString "Cancelled"))];
            ending := Returns |}
    else {| calls := [CallResolve (JString key)]; ending := Returns |}.

Inductive Outcome : Type :=
| StillWaiting
| Resolves (session : JSValue)
| Rejects (r : Reason).

(** A call of [waitForAuthenticationSession] under way: the secret store,
    the adapter of line 254, whether [context.secrets.get] was called and
    has not answered yet (line 267), and what the call came to. *)
Record Wait : Type := {
  secrets : gmap string string;
  adapter_state : PromiseFromEvent.State;
  reading : bool;
  outcome : Outcome
}.

(** What happens while the call is under way: the store changes and
    [onDidChange] fires with the key; the queued reactions run, to the end
    of the turn; the store answers the pending [get]. Several changes may
    come in one turn, and more may come before the [get] is answered. *)
Inductive WaitInput : Type :=
| Change (op : SecretOp)
| Reactions
| ReadServed.

(** What follows [await authPromise.promise] (line 261) once that promise
    is settled: a rejection is thrown on; otherwise [data.toString()] is
    logged (a [TypeError] on [undefined] and [null]) and the record is
    asked of the store (line 267). *)
Definition resume (w : Wait) (s : Settled) : Wait :=
  let ends (o : Outcome) :=
    {| secrets := secrets w; adapter_state := adapter_state w;
       reading := false; outcome := o |} in
  match s with
  | Rejected r => ends (Rejects r)
  | Fulfilled JUndefined | Fulfilled JNull => ends (Rejects TypeError)
  | Fulfilled _ =>
      {| secrets := secrets w; adapter_state := adapter_state w;
         reading := true; outcome := StillWaiting |}
  end.

(** The answer of the store is the record as it stands when the [get] is
    answered; it is parsed and returned (lines 267-268). *)
Definition retrieve (store : gmap string string) : Outcome :=
  match JSON_parse (or_else (store !! authSessionKey) "") with
  | Normal session => Resolves session
  | Throw r => Rejects r
  end.

Definition wait_step (w : Wait) (i : WaitInput) : Wait :=
  match i with
  | Change op =>
      {| secrets := apply_op op (secrets w);
         adapter_state :=
           step authAdapter (adapter_state w) (Emit (op_key op));
         reading := reading w;
         outcome := outcome w |}
  | Reactions =>
      let w' := {| secrets := secrets w;
                   adapter_state := drain authAdapter (adapter_state w);
                   reading := reading w;
                   outcome := outcome w |} in
      match outcome w, reading w, promise (adapter_state w') with
      | StillWaiting, false, Some s => resume w' s
      | _, _, _ => w'
      end
  | ReadServed =>
      match outcome w, reading w with
      | StillWaiting, true =>
          {| secrets := secrets w; adapter_state := adapter_state w;
             reading := false; outcome := retrieve (secrets w) |}
      | _, _ => w
      end
  end.

(** [waitForAuthenticationSession()] over what happens, [ins], to a store
    that starts as [store]. *)
Definition waitForAuthenticationSession (store : gmap string string)
    (ins : list WaitInput) : Wait :=
  fold_left wait_step ins
    {| secrets := store; adapter_state := init; reading := false;
       outcome := StillWaiting |}.

(** Reading a list of inputs: the changes it holds, the store they lead
    to, and the adapter while its [then] reaction is queued and after. *)
Definition is_reactions (i : WaitInput) : bool :=
  match i with
  | Reactions => true
  | _ => false
  end.

Definition is_read (i : WaitInput) : bool :=
  match i with
  | ReadServed => true
  | _ => false
  end.

Definition changes_of (ins : list WaitInput) : list SecretOp :=
  flat_map (fun i => match i with
                     | Change op => [op]
                     | _ => []
                     end) ins.

Definition store_after (store : gmap string string) (ins : list WaitInput)
  : gmap string string :=
  fold_left (fun s op => apply_op op s) (changes_of ins) store.

Definition first_result (key : string) : Settled :=
  if String.eqb key authSessionKey
  then Fulfilled (JString key)
  else Rejected (Thrown (JString "Cancelled")).

Definition settling (s : Settled) : PromiseFromEvent.State :=
  {| inner := Some s; subscribed := true; jobs := [ThenJob s];
     promise := None; disposals := 0; settlements := 0 |}.

Definition finished (s : Settled) : PromiseFromEvent.State :=
  {| inner := Some s; subscribed := false; jobs := [];
     promise := Some s; disposals := 1; settlements := 1 |}.

(** One run of [createSession]: when it is called, the entropy read, how
    long [openExternal] takes, how late the timer fires, and the changes
    made to the secret store meanwhile, each with its time. *)
Record Run : Type := {
  start : N;
  entropy : nat -> byte;
  openExternal_delay : N;
  timer_lag : N;
  store0 : gmap string string;
  changes : list (N * SecretOp)
}.

Inductive Effect : Type :=
| OpenExternal (at_ : N) (code_challenge code_challenge_method : string).

(** [createSession]: the effects, and the promise it returns. The second
    element of the race is the function [waitForAuthenticationSession]
    itself, as line 313 has it, not a call to it. *)
Definition createSession (r : Run) : list Effect * Promise :=
  let codePair := generatePKCE (entropy r) in
  let timeoutPromise :=
    rejectAfter (start r) (1000 * 60 * 5)%N (timer_lag r)
                (Thrown (JString "Login timed out.")) in
  let opened := (start r + openExternal_delay r)%N in
  ([OpenExternal (start r) (codeChallenge codePair) "S256"],
   Promise_race opened
     [OfPromise timeoutPromise;
      OfValue (JFunction "waitForAuthenticationSession")]).

End Provider.

(** ** Concrete inputs *)

Module Inputs.
Import JS Provider Validator.

(** An entropy source that yields zero bytes only. *)
Definition zeros : nat -> byte := fun _ => Byte.x00.

(** A session record as the redirect handler stores it. *)
Definition sessionText : string :=
  dq "{'id':'gitpod.user','account':{'label':'Ann','id':'u1'},'scopes':['s1','s2'],'accessToken':'tok'}".

Definition session : JSValue :=
  JObject [("id", JString "gitpod.user");
           ("account", JObject [("label", JString "Ann");
                                ("id", JString "u1")]);
           ("scopes", JArray [JString "s1"; JString "s2"]);
           ("accessToken", JString "tok")].

Definition stored : gmap string string := {[ authSessionKey := sessionText ]}.

Definition ann : User := {| user_id := "u1"; user_name := Some "Ann" |}.

(** A service that answers both calls. *)
Definition okServer : Server :=
  {| getLoggedInUser := ReplyOk ann;
     getGitpodTokenScopes := fun _ => ReplyOk ["resource:default"] |}.

(** A service that refuses the first call. *)
Definition failingServer : Server :=
  {| getLoggedInUser := ReplyError "unauthorized";
     getGitpodTokenScopes := fun _ => ReplyOk [] |}.

(** A service that refuses the second call only. *)
Definition halfServer : Server :=
  {| getLoggedInUser := ReplyOk ann;
     getGitpodTokenScopes := fun _ => ReplyError "unauthorized" |}.

(** The redirect handler stores the session 100 ms after the start. *)
Definition loginRun : Run :=
  {| start := 0%N; entropy := zeros; openExternal_delay := 5%N;
     timer_lag := 0%N;
     store0 := ∅; changes := [(100%N, Store authSessionKey sessionText)] |}.

(** Nobody logs in: the store is never written. *)
Definition idleRun : Run :=
  {| start := 0%N; entropy := zeros; openExternal_delay := 5%N;
     timer_lag := 0%N;
     store0 := ∅; changes := [] |}.

End Inputs.

(** ** Reading strings *)

Module Text.
Import Buffer.

Fixpoint string_forall (p : ascii -> bool) (s : string) : bool :=
  match s with
  | EmptyString => true
  | String c r => p c && string_forall p r
  end.

Definition is_b64_char (c : ascii) : bool :=
  existsb (Ascii.eqb c) (list_ascii_of_string b64_alphabet).

Definition is_hex_char (c : ascii) : bool :=
  existsb (Ascii.eqb c) (list_ascii_of_string "0123456789abcdef").

(** Every sextet is written with a character of the alphabet, and every
    nibble with a hexadecimal digit (checks that run). *)
Definition b64_all_in_alphabet : bool :=
  forallb (fun i => is_b64_char (b64_char (Z.of_nat i))) (seq 0 64).

Definition hex_all_digits : bool :=
  forallb (fun i => is_hex_char (hex_digit (Z.of_nat i))) (seq 0 16).

End Text.

(** ** [removeSession], lines 337-339 *)

Module Removal.
Import Provider.

(** [context.secrets.delete('gitpod.authSession')] *)
Definition removeSession (secrets : gmap string string)
  : gmap string string :=
  delete authSessionKey secrets.

End Removal.

(** ** Reading inputs and logs *)

Module Trace.
Import PromiseFromEvent Validator.

Definition is_cancel {T} (i : Input T) : bool :=
  match i with
  | Cancel => true
  | _ => false
  end.

(** How often a log opens the transport. *)
Definition opens (log : list Event) : nat :=
  List.length (List.filter (fun e => match e with
                                     | OpenTransport _ _ _ => true
                                     | _ => false
                                     end) log).

(** Nothing follows the closing of the transport. *)
Fixpoint close_is_last (log : list Event) : bool :=
  match log with
  | [] => true
  | CloseTransport :: r => match r with [] => true | _ :: _ => false end
  | _ :: r => close_is_last r
  end.

(** Every answer is to a call issued earlier in the log. *)
Fixpoint answers_follow_calls (issued : list string) (log : list Event)
  : bool :=
  match log with
  | [] => true
  | Issue m _ :: r => answers_follow_calls (m :: issued) r
  | Completed m _ :: r =>
      existsb (String.eqb m) issued && answers_follow_calls issued r
  | _ :: r => answers_follow_calls issued r
  end.

(** An orderly log starts by opening the transport and opens it once,
    issues and answers calls after that, and ends when it closes it. *)
Definition orderly (log : list Event) : bool :=
  match log with
  | OpenTransport _ _ _ :: r =>
      Nat.eqb (opens r) 0 && close_is_last r && answers_follow_calls [] r
  | _ => false
  end.

End Trace.

(** ** The query of the authorization URL: [createSession], lines 292-299 *)

Module Query.
Import Provider.

(** The parameters of a query, as [URLSearchParams] holds them: names and
    values in order, names possibly repeated. *)
Definition Params : Type := list (string * string).

(** [params.get(name)]: the value of the first parameter of that name. *)
Fixpoint get (name : string) (q : Params) : option string :=
  match q with
  | [] => None
  | (n, v) :: r => if String.eqb n name then Some v else get name r
  end.

Definition remove_all (name : string) (q : Params) : Params :=
  List.filter (fun p => negb (String.eqb (fst p) name)) q.

(** [params.set(name, value)]: the first parameter of that name takes the
    value and the others of that name are removed; without any, the
    parameter is appended. *)
Fixpoint set (name value : string) (q : Params) : Params :=
  match q with
  | [] => [(name, value)]
  | (n, v) :: r =>
      if String.eqb n name then (n, value) :: remove_all name r
      else (n, v) :: set name value r
  end.

Definition count (name : string) (q : Params) : nat :=
  List.length (List.filter (fun p => String.eqb (fst p) name) q).

(** Lines 293-299: [secureQuery] after the two calls of [set], from the
    query [search] of the URL that the OAuth client built. *)
Definition secureQuery (search : Params) (codePair : PKCE) : Params :=
  set "code_challenge_method" "S256"
    (set "code_challenge" (codeChallenge codePair) search).

End Query.

(** ** Settings: [manuallyWriteConfig] (lines 104-143), [promptToReload]
    (148-157) and [addAuthProviderToSettings] (163-182) *)

Module Settings.
Import JS Validator.

Definition storeKey : string := "configurationSync.store".

(** What the user sees and what is asked of the editor. *)
Inductive UIEffect : Type :=
| ConfigUpdate (section : string) (value : JSValue) (global : bool)
| ShowInformationMessage (message : string) (items : list string)
| ShowErrorMessage (message : string)
| ExecuteCommand (command : string).

(** [promptToReload(msg)]; [selected] is what [showInformationMessage]
    resolves with: the item chosen, or nothing. *)
Definition promptToReload (msg : option string) (selected : option string)
  : list UIEffect :=
  let action := "Reload" in
  ShowInformationMessage
    (or_else msg
       "Reload VS Code for new code sync configuration to take effect.")
    [action]
  :: match selected with
     | Some selectedAction =>
         if String.eqb selectedAction action
         then [ExecuteCommand "workbench.action.reloadWindow"]
         else []
     | None => []
     end.

(** The object literal of lines 167-176. *)
Definition nativeStoreConfig (syncStoreURL : string) : JSValue :=
  JObject [("url", JString syncStoreURL);
           ("stableUrl", JString syncStoreURL);
           ("insidersUrl", JString syncStoreURL);
           ("canSwitch", JBool true);
           ("authenticationProviders",
            JObject [("gitpod",
                      JObject [("scopes",
                                JArray [JString
                                  "function:accessCodeSyncStorage"])])])].

(** [addAuthProviderToSettings()]; [update_error] is the error
    [config.update] rejects with, if it does, as a text. *)
Definition addAuthProviderToSettings (update_error : option string)
    (selected : option string) : Completion unit * list UIEffect :=
  let syncStoreURL := baseURL ++ "/code-sync" in
  (Normal tt,
   ConfigUpdate storeKey (nativeStoreConfig syncStoreURL) true
   :: match update_error with
      | None => promptToReload None selected
      | Some e =>
          [ShowErrorMessage ("Erorr setting up code sync config: " ++ e)]
      end).

(** The object that [JSON.parse] builds defines its properties one after
    the other: a name met again keeps its place and takes the new value. *)
Fixpoint put (k : string) (v : JSValue) (props : list (string * JSValue))
  : list (string * JSValue) :=
  match props with
  | [] => [(k, v)]
  | (k', v') :: r =>
      if String.eqb k' k then (k', v) :: r else (k', v') :: put k v r
  end.

Definition own_props (props : list (string * JSValue))
  : list (string * JSValue) :=
  fold_left (fun acc kv => put (fst kv) (snd kv) acc) props [].

(** The array index that a property name writes, if it does: a decimal
    numeral without sign or leading zero, below 2^32 - 1. *)
Fixpoint decimal (s : string) (acc : N) : option N :=
  match s with
  | EmptyString => Some acc
  | String c r =>
      if is_digit c then decimal r (acc * 10 + (N_of_ascii c - 48))%N
      else None
  end.

Definition index_of (k : string) : option N :=
  match k with
  | EmptyString => None
  | String "0"%char EmptyString => Some 0%N
  | String "0"%char _ => None
  | _ =>
      match decimal k 0%N with
      | Some n => if (n <? 4294967295)%N then Some n else None
      | None => None
      end
  end.

(** An object lists its properties with the array indices first, in
    ascending order, and the other names after them in the order in which
    they were defined; that is the order in which [JSON.stringify] prints
    them. *)
Fixpoint insert_index (n : N) (kv : string * JSValue)
    (l : list (N * (string * JSValue))) : list (N * (string * JSValue)) :=
  match l with
  | [] => [(n, kv)]
  | (m, x) :: r =>
      if (n <=? m)%N then (n, kv) :: (m, x) :: r
      else (m, x) :: insert_index n kv r
  end.

Definition index_entries (props : list (string * JSValue))
  : list (N * (string * JSValue)) :=
  fold_right (fun kv acc => match index_of (fst kv) with
                            | Some n => insert_index n kv acc
                            | None => acc
                            end) [] props.

Definition is_name (kv : string * JSValue) : bool :=
  match index_of (fst kv) with
  | Some _ => false
  | None => true
  end.

Definition enumerate (props : list (string * JSValue))
  : list (string * JSValue) :=
  (map snd (index_entries props) ++ List.filter is_name props)%list.

(** The value that [JSON.parse] builds, its objects with their properties
    as they are listed. *)
Fixpoint normalize (v : JSValue) : JSValue :=
  match v with
  | JArray elems => JArray (map normalize elems)
  | JObject props =>
      JObject (enumerate
                 (own_props
                    (map (fun kv => (fst kv, normalize (snd kv))) props)))
  | other => other
  end.

Definition remove_key (k : string) (props : list (string * JSValue))
  : list (string * JSValue) :=
  List.filter (fun kv => negb (String.eqb (fst kv) k)) props.

(** [target[k] = v] in module (strict) code, for a name [k] that is no
    array index: an object takes the property (in the place it has, or
    after all others); an array takes it too, as
    a named property that [JSON.stringify] does not print; [null] and the
    primitive values raise a [TypeError]. *)
Definition assign (target : JSValue) (k : string) (v : JSValue)
  : Completion JSValue :=
  match target with
  | JObject props => Normal (JObject (put k v props))
  | JArray elems => Normal (JArray elems)
  | JFunction name => Normal (JFunction name)
  | _ => Throw TypeError
  end.

(** [delete target[k]], for such a name: an object loses the property;
    [null] and [undefined] raise a [TypeError]; any other value has no
    such property and is left as it is. *)
Definition delete_prop (target : JSValue) (k : string) : Completion JSValue :=
  match target with
  | JObject props => Normal (JObject (remove_key k props))
  | JUndefined | JNull => Throw TypeError
  | other => Normal other
  end.

(** How [writeFileSync] fails, with the text of the error: the file cannot
    be opened for writing, and is left as it was; or the error comes after
    the file was opened, which empties it, and [written] characters of the
    new text went in. *)
Inductive WriteFault : Type :=
| OpenFails (err : string)
| WriteFails (err : string) (written : nat).

Definition fault_text (f : WriteFault) : string :=
  match f with
  | OpenFails err => err
  | WriteFails err _ => err
  end.

(** The machine the extension runs on: [process.platform],
    [process.env.APPDATA], [os.homedir()], the files that can be read, and
    how [writeFileSync] fails, if it does. *)
Record Host : Type := {
  platform : string;
  APPDATA : option string;
  homedir : string;
  files : gmap string string;
  write_error : option WriteFault
}.

(** The same machine when [writeFileSync] does not fail. *)
Definition writable (h : Host) : Host :=
  {| platform := platform h; APPDATA := APPDATA h; homedir := homedir h;
     files := files h; write_error := None |}.

(** A value inside a template literal: [undefined] prints as its name. *)
Definition template (v : option string) : string :=
  match v with
  | Some s => s
  | None => "undefined"
  end.

Definition configFile (h : Host) : string :=
  if String.eqb (platform h) "win32" then
    template (APPDATA h) ++ "\Code\User\settings.json"
  else if String.eqb (platform h) "darwin" then
    homedir h ++ "/Library/Application Support/Code/User/settings.json"
  else
    homedir h ++ "/.config/Code/User/settings.json".

(** The object literal of lines 124-134. *)
Definition manualStoreConfig (syncStoreURL : string) : JSValue :=
  JObject [("url", JString syncStoreURL);
           ("stableUrl", JString syncStoreURL);
           ("insidersUrl", JString syncStoreURL);
           ("canSwitch", JBool true);
           ("authenticationProviders",
            JObject [("gitpod",
                      JObject [("scopes",
                                JArray [JString
                                  "function:accessCodeSyncStorage"])])])].

Record Written : Type := {
  result : Completion unit;
  disk : gmap string string;
  shown : list UIEffect
}.

(** [manuallyWriteConfig(syncStoreURL, remove)]. [JSON_stringify] stands
    for [JSON.stringify(., null, 4)], which no property below looks into;
    a file that cannot be read raises the error [ENOENT]. *)
Definition manuallyWriteConfig (JSON_stringify : JSValue -> string)
    (h : Host) (syncStoreURL : string) (remove : option bool) : Written :=
  let failed r := {| result := Throw r; disk := files h; shown := [] |} in
  match files h !! configFile h with
  | None => failed (Thrown (JString "ENOENT"))
  | Some settingsContents =>
      match JSON_parse settingsContents with
      | Throw r => failed r
      | Normal parsed =>
          let jsonContents := normalize parsed in
          match (match remove with
                 | Some true => delete_prop jsonContents storeKey
                 | _ => assign jsonContents storeKey
                               (manualStoreConfig syncStoreURL)
                 end) with
          | Throw r => failed r
          | Normal updated =>
              let data := JSON_stringify updated in
              match write_error h with
              | None =>
                  {| result := Normal tt;
                     disk := <[configFile h := data]> (files h);
                     shown := [] |}
              | Some fault =>
                  {| result := Normal tt;
                     disk := match fault with
                             | OpenFails _ => files h
                             | WriteFails _ written =>
                                 <[configFile h :=
                                     String.substring 0 written data]>
                                   (files h)
                             end;
                     shown := [ShowErrorMessage
                                 ("Error writing file: "
                                  ++ fault_text fault)] |}
              end
          end
      end
  end.

End Settings.

(** ** More concrete inputs *)

Module MoreInputs.
Import JS Settings.

(** A Linux host whose settings file holds a comment, as the editor
    allows, which [JSON.parse] refuses. *)
Definition commentedHost : Host :=
  {| platform := "linux"; APPDATA := None; homedir := "/home/ann";
     files := {[ "/home/ann/.config/Code/User/settings.json"
                 := "// my settings {}" ]};
     write_error := None |}.

(** A host with plain settings, which can be written or not. *)
Definition settingsText : string :=
  dq "{'editor.fontSize': 12, 'configurationSync.store': 1, '7': [true], '2': null}".

(** Its properties in the order of the text. *)
Definition settingsParsed : list (string * JSValue) :=
  [("editor.fontSize", JNumber "12"); ("configurationSync.store", JNumber "1");
   ("7", JArray [JBool true]); ("2", JNull)].

(** Its properties as the parsed object lists them: indices first. *)
Definition settingsProps : list (string * JSValue) :=
  [("2", JNull); ("7", JArray [JBool true]);
   ("editor.fontSize", JNumber "12"); ("configurationSync.store", JNumber "1")].

Definition plainHost (write_error : option WriteFault) : Host :=
  {| platform := "darwin"; APPDATA := None; homedir := "/Users/ann";
     files := {[ "/Users/ann/Library/Application Support/Code/User/settings.json"
                 := settingsText ]};
     write_error := write_error |}.

(** A stand-in for [JSON.stringify] in the examples. *)
Definition printer (v : JSValue) : string :=
  match v with
  | JObject props => "{" ++ String.concat "," (map fst props) ++ "}"
  | _ => "?"
  end.

End MoreInputs.

(** * Properties *)

(** ** Known answers *)

Example sha256_abc :
  Buffer.hex (SHA256.digest (Buffer.utf8 "abc"))
  = "ba7816bf8f01cfea414140de5dae2223b00361a396177a9cb410ff61f20015ad".
Proof. vm_compute. reflexivity. Qed.

Example sha256_empty :
  Buffer.hex (SHA256.digest [])
  = "e3b0c44298fc1c149afbf4c8996fb92427ae41e4649b934ca495991b7852b855".
Proof. vm_compute. reflexivity. Qed.

Example sha256_two_blocks :
  Buffer.hex (SHA256.digest (Buffer.utf8
    "abcdbcdecdefdefgefghfghighijhijkijkljklmklmnlmnomnopnopq"))
  = "248d6a61d20638b8e5c026930c3e6039a33ce45964ff2167f6ecedd419db06c1".
Proof. vm_compute. reflexivity. Qed.

Example sha256_constants :
  List.length SHA256.K = 64%nat
  /\ nth 0 SHA256.K 0 = 0x428a2f98 /\ nth 63 SHA256.K 0 = 0xc67178f2
  /\ SHA256.ha SHA256.H0 = 0x6a09e667 /\ SHA256.hh SHA256.H0 = 0x5be0cd19.
Proof. vm_compute. auto 6. Qed.

Example base64_padding :
  Buffer.base64 (Buffer.utf8 "light w") = "bGlnaHQgdw=="
  /\ Buffer.base64 (Buffer.utf8 "light wo") = "bGlnaHQgd28="
  /\ Buffer.base64 (Buffer.utf8 "light wor") = "bGlnaHQgd29y".
Proof. vm_compute. auto. Qed.

Example JSON_parse_session :
  JS.JSON_parse (JS.dq "{'id':'gitpod.user', 'scopes' : ['s1','s2'], 'n':[-1.5e+3,true,null,{}]}")
  = JS.Normal (JS.JObject
      [("id", JS.JString "gitpod.user");
       ("scopes", JS.JArray [JS.JString "s1"; JS.JString "s2"]);
       ("n", JS.JArray [JS.JNumber "-1.5e+3"; JS.JBool true; JS.JNull;
                        JS.JObject []])]).
Proof. vm_compute. reflexivity. Qed.

Example JSON_parse_rejects :
  JS.JSON_parse "" = JS.Throw JS.SyntaxError
  /\ JS.JSON_parse "[1,]" = JS.Throw JS.SyntaxError
  /\ JS.JSON_parse "01" = JS.Throw JS.SyntaxError
  /\ JS.JSON_parse "{} x" = JS.Throw JS.SyntaxError.
Proof. vm_compute. auto. Qed.

Example JSON_parse_escapes :
  JS.JSON_parse (JS.dq "'\u0041\u00e9\ud83d\ude00'")
  = JS.Normal (JS.JString
      (String "A" (String (ascii_of_nat 195) (String (ascii_of_nat 169)
        (String (ascii_of_nat 240) (String (ascii_of_nat 159)
          (String (ascii_of_nat 152) (String (ascii_of_nat 128) ""))))))))
  /\ JS.JSON_parse (JS.dq "'\n\t\u005c'")
     = JS.Normal (JS.JString
         (String (ascii_of_nat 10) (String (ascii_of_nat 9) "\"))).
Proof. vm_compute. auto. Qed.

(** ** Buffers *)

Module BufferFacts.
Import Buffer.

Lemma byte_val_range (b : byte) : 0 <= byte_val b < 256.
Proof.
  unfold byte_val. pose proof (Byte.to_N_bounded b). lia.
Qed.

Lemma byte_val_inj (a b : byte) : byte_val a = byte_val b -> a = b.
Proof.
  unfold byte_val. intros H. apply N2Z.inj in H.
  pose proof (Byte.of_to_N a) as Ha. rewrite H, Byte.of_to_N in Ha.
  congruence.
Qed.

Lemma Z_below_cases (P : Z -> Prop) (n : nat) :
  (forall i, (i < n)%nat -> P (Z.of_nat i)) ->
  forall z, 0 <= z < Z.of_nat n -> P z.
Proof.
  intros H z Hz. rewrite <- (Z2Nat.id z) by lia. apply H. lia.
Qed.

Lemma b64_char_inj (i j : Z) :
  0 <= i < 64 -> 0 <= j < 64 -> b64_char i = b64_char j -> i = j.
Proof.
  intros Hi Hj.
  assert (Hd : b64_distinct = true) by (vm_compute; reflexivity).
  unfold b64_distinct in Hd. rewrite forallb_forall in Hd.
  revert j Hj. pattern i. apply (Z_below_cases _ 64); [|lia].
  intros a Ha j Hj. pattern j. apply (Z_below_cases _ 64); [|lia].
  intros b Hb Heq.
  specialize (Hd a). rewrite forallb_forall in Hd.
  assert (Hab : implb (Ascii.eqb (b64_char (Z.of_nat a))
                                 (b64_char (Z.of_nat b)))
                      (Nat.eqb a b) = true).
  { apply Hd; apply in_seq; lia. }
  rewrite Heq, Ascii.eqb_refl in Hab. simpl in Hab.
  apply Nat.eqb_eq in Hab. congruence.
Qed.

Lemma sextet_inj (k n m : Z) :
  0 <= k -> sextet k n = sextet k m ->
  (n / 2 ^ k) mod 64 = (m / 2 ^ k) mod 64.
Proof.
  intros Hk H. unfold sextet in H.
  apply b64_char_inj in H; [exact H| |]; apply Z.mod_pos_bound; lia.
Qed.

Lemma group3_range (a b c : byte) : 0 <= group3 a b c < 16777216.
Proof.
  unfold group3.
  pose proof (byte_val_range a). pose proof (byte_val_range b).
  pose proof (byte_val_range c). lia.
Qed.

Lemma sextets_inj (n m : Z) :
  0 <= n < 16777216 -> 0 <= m < 16777216 ->
  sextet 18 n = sextet 18 m -> sextet 12 n = sextet 12 m ->
  sextet 6 n = sextet 6 m -> sextet 0 n = sextet 0 m -> n = m.
Proof.
  intros Hn Hm H18 H12 H6 H0.
  apply sextet_inj in H18, H12, H6, H0; try lia.
  change (2 ^ 18) with 262144 in H18. change (2 ^ 12) with 4096 in H12.
  change (2 ^ 6) with 64 in H6. change (2 ^ 0) with 1 in H0.
  Z.to_euclidean_division_equations. lia.
Qed.

Lemma group3_inj (a b c a' b' c' : byte) :
  group3 a b c = group3 a' b' c' -> a = a' /\ b = b' /\ c = c'.
Proof.
  unfold group3. intros H.
  pose proof (byte_val_range a). pose proof (byte_val_range b).
  pose proof (byte_val_range c). pose proof (byte_val_range a').
  pose proof (byte_val_range b'). pose proof (byte_val_range c').
  repeat split; apply byte_val_inj; lia.
Qed.

Lemma base64_inj_same_length (n : nat) : forall l l' : list byte,
  List.length l = n -> List.length l' = n ->
  base64 l = base64 l' -> l = l'.
Proof.
  induction n as [n IH] using lt_wf_ind. intros l l' Hl Hl' H.
  destruct l as [|a [|b [|c r]]]; destruct l' as [|a' [|b' [|c' r']]];
    simpl in Hl, Hl'; try lia; try reflexivity.
  - cbn [base64] in H. injection H as H18 H12.
    assert (Hg : group3 a Byte.x00 Byte.x00 = group3 a' Byte.x00 Byte.x00).
    { unfold group3 in *.
      pose proof (byte_val_range a). pose proof (byte_val_range a').
      apply sextet_inj in H18, H12; try lia.
      change (2 ^ 18) with 262144 in H18.
      change (2 ^ 12) with 4096 in H12.
      change (byte_val Byte.x00) with 0 in *.
      Z.to_euclidean_division_equations. lia. }
    apply group3_inj in Hg. destruct Hg as [-> _]. reflexivity.
  - cbn [base64] in H. injection H as H18 H12 H6.
    assert (Hg : group3 a b Byte.x00 = group3 a' b' Byte.x00).
    { pose proof (group3_range a b Byte.x00) as Hr.
      pose proof (group3_range a' b' Byte.x00) as Hr'.
      unfold group3 in *.
      apply sextet_inj in H18, H12, H6; try lia.
      change (2 ^ 18) with 262144 in H18.
      change (2 ^ 12) with 4096 in H12. change (2 ^ 6) with 64 in H6.
      change (byte_val Byte.x00) with 0 in *.
      Z.to_euclidean_division_equations. lia. }
    apply group3_inj in Hg. destruct Hg as (-> & -> & _). reflexivity.
  - cbn [base64] in H. injection H as H18 H12 H6 H0 Hrest.
    assert (Hg : group3 a b c = group3 a' b' c').
    { apply sextets_inj; auto using group3_range. }
    apply group3_inj in Hg. destruct Hg as (-> & -> & ->).
    f_equal. f_equal. f_equal.
    apply (IH (List.length r)); [lia | reflexivity | lia | exact Hrest].
Qed.

Lemma base64_length (n : nat) : forall l : list byte,
  List.length l = n ->
  String.length (base64 l) = (4 * ((n + 2) / 3))%nat.
Proof.
  induction n as [n IH] using lt_wf_ind. intros l Hl.
  destruct l as [|a [|b [|c r]]]; simpl in Hl; subst n;
    try reflexivity.
  cbn [base64 String.length].
  rewrite (IH (List.length r)) by (lia || reflexivity).
  replace (S (S (S (List.length r))) + 2)%nat
    with (1 * 3 + (List.length r + 2))%nat by lia.
  rewrite Nat.div_add_l by lia. lia.
Qed.

End BufferFacts.

Module SHA256Facts.
Import Buffer SHA256.

Lemma be_bytes_length (n : nat) (x : Z) : List.length (be_bytes n x) = n.
Proof.
  unfold be_bytes.
  rewrite List.length_map, List.length_rev, List.length_seq. reflexivity.
Qed.

Lemma digest_length (msg : list byte) : List.length (digest msg) = 32%nat.
Proof.
  unfold digest, output.
  rewrite !List.length_app, !be_bytes_length. reflexivity.
Qed.

End SHA256Facts.

(** ** The PKCE generator *)

Module PKCEFacts.
Import JS Buffer Provider Inputs BufferFacts SHA256Facts.

Lemma randomBytes_length (n : nat) (entropy : nat -> byte) :
  List.length (randomBytes n entropy) = n.
Proof.
  unfold randomBytes. rewrite List.length_map, List.length_seq. reflexivity.
Qed.

(** The digest clause of C3 fails: with an entropy source of zero bytes
    the challenge is not the base64 of the SHA-256 of the 32 raw bytes. *)
Lemma generatePKCE_not_over_raw_bytes :
  codeVerifier (generatePKCE zeros)
  = "AAAAAAAAAAAAAAAAAAAAAAAAAAAAAAAAAAAAAAAAAAA="
  /\ codeChallenge (generatePKCE zeros)
     = "UWQ+rJd3tjp7JoF00f1Cdtrt7JvJ6gvG5av2kEe8VPY="
  /\ base64 (SHA256.digest (randomBytes 32 zeros))
     = "Zmh6rfhivXdsj8GLjp+OIAiXFIVu4jOzkCpZHQ1fKSU="
  /\ String.eqb (codeChallenge (generatePKCE zeros))
                (base64 (SHA256.digest (randomBytes 32 zeros))) = false.
Proof. vm_compute. auto. Qed.

(** What the generator returns (towards C3): for every entropy source the
    verifier is the base64 text (44 characters) of the 32 bytes read and
    the challenge is the base64 of the SHA-256 of the UTF-8 bytes of that
    verifier text (the string form, not the raw bytes). Verifier and
    challenge are equal exactly when the 32 bytes are the digest of their
    own base64 text; whether SHA-256 has such a point is not decided
    here. *)
Theorem generatePKCE_spec (entropy : nat -> byte) :
  let raw := randomBytes 32 entropy in
  let pair := generatePKCE entropy in
  List.length raw = 32%nat
  /\ codeVerifier pair = base64 raw
  /\ String.length (codeVerifier pair) = 44%nat
  /\ codeChallenge pair = base64 (SHA256.digest (utf8 (codeVerifier pair)))
  /\ (codeVerifier pair = codeChallenge pair
      <-> SHA256.digest (utf8 (base64 raw)) = raw).
Proof.
  intros raw pair.
  assert (Hraw : List.length raw = 32%nat) by apply randomBytes_length.
  split; [exact Hraw|]. split; [reflexivity|].
  split; [exact (base64_length 32 raw Hraw)|].
  split; [reflexivity|]. split.
  - cbn [pair generatePKCE codeVerifier codeChallenge]. fold raw.
    intros H. symmetry.
    apply (base64_inj_same_length 32); auto using digest_length.
  - cbn [pair generatePKCE codeVerifier codeChallenge]. fold raw.
    intros H. rewrite H. reflexivity.
Qed.

End PKCEFacts.

(** ** [hasScopes] and [getSessions] *)

Module SessionFacts.
Import JS Provider Inputs.

Lemma or_else_some (text : string) : or_else (Some text) "" = text.
Proof. destruct text; reflexivity. Qed.

Lemma includes_array (granted : list string) (x : string) :
  includes (JArray (map JString granted)) x
  = Normal (bool_decide (x ∈ granted)).
Proof.
  cbn [includes]. f_equal.
  induction granted as [|g r IH]; [reflexivity|].
  cbn [map existsb]. rewrite IH.
  destruct (String.eqb_spec g x) as [->|Hne].
  - cbn [orb]. symmetry. apply bool_decide_eq_true_2, list_elem_of_here.
  - cbn [orb]. apply bool_decide_ext.
    rewrite elem_of_cons. intuition congruence.
Qed.

Lemma hasScopes_array (session : JSValue) (granted requested : list string) :
  get_prop session "scopes" = Normal (JArray (map JString granted)) ->
  hasScopes session (Some requested)
  = Normal (bool_decide (requested ⊆ granted)).
Proof.
  intros Hget. cbn [hasScopes]. rewrite Hget. cbn [mbind completion_bind].
  induction requested as [|x r IH].
  - cbn [every]. rewrite bool_decide_eq_true_2; [reflexivity|].
    intros y Hy. inversion Hy.
  - cbn [every mbind completion_bind].
    rewrite includes_array. cbn [mbind completion_bind].
    destruct (decide (x ∈ granted)) as [Hin|Hout].
    + rewrite (bool_decide_eq_true_2 _ Hin). rewrite IH.
      f_equal. apply bool_decide_ext. split.
      * intros Hsub y Hy. apply elem_of_cons in Hy as [->|Hy]; auto.
      * intros Hsub y Hy. apply Hsub. apply elem_of_cons; auto.
    + rewrite (bool_decide_eq_false_2 _ Hout).
      rewrite bool_decide_eq_false_2; [reflexivity|].
      intros Hsub. apply Hout, Hsub, list_elem_of_here.
Qed.

Lemma hasScopes_empty (session : JSValue) :
  hasScopes session (Some []) = Normal true.
Proof. reflexivity. Qed.

Lemma stored_lookup : stored !! authSessionKey = Some sessionText.
Proof. apply lookup_singleton_eq. Qed.

Lemma sessionText_parse : JSON_parse sessionText = Normal session.
Proof. vm_compute. reflexivity. Qed.

(** C4, as stated, fails: with a valid session stored, a request with an
    empty scope array returns that session. *)
Lemma getSessions_empty_array_returns_stored :
  getSessions stored (Some []) = Normal [session].
Proof.
  unfold getSessions. rewrite stored_lookup, or_else_some.
  rewrite sessionText_parse. reflexivity.
Qed.

(** C4, amended: for every state of the secret store, [getSessions]
    returns an empty result when no scope array is passed; with an empty
    array it returns whatever value the stored text parses to, and
    rejects with the parse error when that text does not parse. *)
Theorem getSessions_without_scopes (secrets : gmap string string) :
  getSessions secrets None = Normal []
  /\ getSessions secrets (Some [])
     = match JSON_parse (or_else (secrets !! authSessionKey) "") with
       | Normal session => Normal [session]
       | Throw r => Throw r
       end.
Proof.
  split; [reflexivity|]. unfold getSessions.
  destruct (JSON_parse _) as [v|r]; reflexivity.
Qed.

(** C6: when the store holds a text that parses to a session whose
    [scopes] is an array of strings, [getSessions(requested)] returns that
    session if [requested] is included in those scopes, and an empty
    result otherwise; so it returns the session exactly when the stored
    scopes are a superset of the requested ones. This holds for every
    requested array, hence for every non-empty one. *)
Theorem getSessions_superset (secrets : gmap string string)
    (text : string) (session : JSValue) (granted requested : list string) :
  secrets !! authSessionKey = Some text ->
  JSON_parse text = Normal session ->
  get_prop session "scopes" = Normal (JArray (map JString granted)) ->
  getSessions secrets (Some requested)
  = Normal (if bool_decide (requested ⊆ granted) then [session] else [])
  /\ (getSessions secrets (Some requested) = Normal [session]
      <-> requested ⊆ granted).
Proof.
  intros Hget Hparse Hscopes.
  assert (Heq : getSessions secrets (Some requested)
    = Normal (if bool_decide (requested ⊆ granted) then [session] else [])).
  { unfold getSessions. rewrite Hget, or_else_some.
    rewrite Hparse. cbn [mbind completion_bind app JS.filter].
    rewrite (hasScopes_array _ _ _ Hscopes). reflexivity. }
  split; [exact Heq|]. rewrite Heq.
  case_bool_decide; split; intros; try done.
Qed.

Lemma getSessions_superset_witness :
  getSessions stored (Some ["s1"; "s2"])
  = Normal (if bool_decide (["s1"; "s2"] ⊆ ["s1"; "s2"])
            then [session] else [])
  /\ (getSessions stored (Some ["s1"; "s2"]) = Normal [session]
      <-> ["s1"; "s2"] ⊆ ["s1"; "s2"]).
Proof.
  apply (getSessions_superset stored sessionText session ["s1"; "s2"]).
  - apply stored_lookup.
  - vm_compute. reflexivity.
  - reflexivity.
Defined.

(** C10: when nothing is stored under [gitpod.authSession], [getSessions]
    with a non-empty scope array rejects with a [SyntaxError]: the missing
    value is replaced by the empty string, which [JSON.parse] refuses. *)
Theorem getSessions_nothing_stored (secrets : gmap string string)
    (requested : list string) :
  requested ≠ [] ->
  secrets !! authSessionKey = None ->
  or_else (secrets !! authSessionKey) "" = ""
  /\ JSON_parse "" = Throw SyntaxError
  /\ getSessions secrets (Some requested) = Throw SyntaxError.
Proof.
  intros _ Hnone. unfold getSessions. rewrite Hnone. cbn [or_else].
  repeat split; reflexivity.
Qed.

Lemma getSessions_nothing_stored_witness :
  or_else ((∅ : gmap string string) !! authSessionKey) "" = ""
  /\ JSON_parse "" = Throw SyntaxError
  /\ getSessions ∅ (Some ["s1"]) = Throw SyntaxError.
Proof.
  apply (getSessions_nothing_stored ∅ ["s1"]).
  - discriminate.
  - reflexivity.
Defined.

End SessionFacts.

(** ** The session validator *)

Module ValidatorFacts.
Import JS Buffer Validator Inputs.

(** The run when the service answers the first call: the second call is
    issued after that answer, and the transport is closed right after. *)
Lemma run_user_ok (server : Server) (scopes : list string)
    (accessToken : string) (user : User) :
  getLoggedInUser server = ReplyOk user ->
  resolveAuthenticationSession server scopes accessToken []
  = (Returned {| id := "gitpod.user";
                 account := {| label := user_name user;
                               account_id := user_id user |};
                 scopes := scopes;
                 accessToken := accessToken |},
     [opening accessToken;
      Issue "getLoggedInUser" [];
      Completed "getLoggedInUser" true;
      Issue "getGitpodTokenScopes" [tokenHash accessToken];
      CloseTransport]).
Proof.
  intros Huser.
  unfold resolveAuthenticationSession, openWebSocket, call, await, close.
  cbn [method reply]. rewrite Huser. reflexivity.
Qed.

(** The run when the service refuses the first call. *)
Lemma run_user_error (server : Server) (scopes : list string)
    (accessToken message : string) :
  getLoggedInUser server = ReplyError message ->
  resolveAuthenticationSession server scopes accessToken []
  = (Raised (RpcError message),
     [opening accessToken;
      Issue "getLoggedInUser" [];
      Completed "getLoggedInUser" false]).
Proof.
  intros Huser.
  unfold resolveAuthenticationSession, openWebSocket, call, await, close.
  cbn [method reply]. rewrite Huser. reflexivity.
Qed.

(** The run when the service never answers the first call. *)
Lemma run_user_silent (server : Server) (scopes : list string)
    (accessToken : string) :
  getLoggedInUser server = NoReply ->
  resolveAuthenticationSession server scopes accessToken []
  = (Hangs, [opening accessToken; Issue "getLoggedInUser" []]).
Proof.
  intros Huser.
  unfold resolveAuthenticationSession, openWebSocket, call, await, close.
  cbn [method reply]. rewrite Huser. reflexivity.
Qed.

(** C2, the defect: when the service refuses [getLoggedInUser], the call
    rejects and the transport it opened is never closed. *)
Theorem resolveAuthenticationSession_leaks_transport
    (tokenScopes : string -> Reply (list string))
    (scopes : list string) (accessToken message : string) :
  let server := {| getLoggedInUser := ReplyError message;
                   getGitpodTokenScopes := tokenScopes |} in
  let run := resolveAuthenticationSession server scopes accessToken [] in
  fst run = Raised (RpcError message)
  /\ snd run = [opening accessToken;
                Issue "getLoggedInUser" [];
                Completed "getLoggedInUser" false]
  /\ closes (snd run) = 0%nat.
Proof.
  intros server run. unfold run.
  rewrite (run_user_error server scopes accessToken message eq_refl).
  repeat split; reflexivity.
Qed.

Example leak_on_failingServer :
  resolveAuthenticationSession failingServer ["s1"] "tok" []
  = (Raised (RpcError "unauthorized"),
     [OpenTransport "wss://server-vscode-ouath2.staging.gitpod-dev.com"
        "https://server-vscode-ouath2.staging.gitpod-dev.com" "Bearer tok";
      Issue "getLoggedInUser" [];
      Completed "getLoggedInUser" false]).
Proof. vm_compute. reflexivity. Qed.

(** On the other failure, a refused [getGitpodTokenScopes], the transport
    is closed once and the session is returned all the same. *)
Lemma resolveAuthenticationSession_ignores_scope_error :
  let run := resolveAuthenticationSession halfServer ["s1"] "tok" [] in
  fst run = Returned {| id := "gitpod.user";
                        account := {| label := Some "Ann";
                                      account_id := "u1" |};
                        scopes := ["s1"];
                        accessToken := "tok" |}
  /\ closes (snd run) = 1%nat.
Proof.
  intros run. unfold run.
  rewrite (run_user_ok halfServer ["s1"] "tok" ann eq_refl).
  split; reflexivity.
Qed.

(** With a service that answers both calls: the transport is closed right
    after the scope lookup was issued, its answer not awaited. *)
Example scope_lookup_not_awaited :
  snd (resolveAuthenticationSession okServer ["s1"] "tok" [])
  = [OpenTransport "wss://server-vscode-ouath2.staging.gitpod-dev.com"
       "https://server-vscode-ouath2.staging.gitpod-dev.com" "Bearer tok";
     Issue "getLoggedInUser" [];
     Completed "getLoggedInUser" true;
     Issue "getGitpodTokenScopes"
       ["1a7674eb4ee78df7e1ac439a93c3fa8e3c945784d4dec9fd8e3011738b2f1d62"];
     CloseTransport].
Proof. vm_compute. reflexivity. Qed.

(** C5, the defect: line 227 calls [getGitpodTokenScopes] without [await],
    while line 225 awaits [getLoggedInUser]. In every call whose user
    fetch is answered, the user fetch completes before the scope-hash
    lookup is issued, as the claim says; but the transport is closed right
    after the lookup was issued, with no wait for its answer, whatever the
    service does with it. *)
Theorem resolveAuthenticationSession_order
    (tokenScopes : string -> Reply (list string)) (user : User)
    (scopes : list string) (accessToken : string) :
  let server := {| getLoggedInUser := ReplyOk user;
                   getGitpodTokenScopes := tokenScopes |} in
  let log := snd (resolveAuthenticationSession server scopes accessToken [])
  in
  log = [opening accessToken;
         Issue "getLoggedInUser" [];
         Completed "getLoggedInUser" true;
         Issue "getGitpodTokenScopes" [tokenHash accessToken];
         CloseTransport]
  /\ completed_before_close "getLoggedInUser" log = true
  /\ closes log = 1%nat.
Proof.
  intros server log. unfold log.
  rewrite (run_user_ok server scopes accessToken user eq_refl).
  repeat split; reflexivity.
Qed.

(** C7: a call succeeds exactly when the user fetch is answered; the
    session returned then carries the user's id and name, the scopes the
    caller passed and the access token unchanged, and the hash sent to
    the scope lookup is the hex SHA-256 of the access token. Otherwise the
    call rejects with the service's error, or never returns. *)
Theorem resolveAuthenticationSession_result (server : Server)
    (scopes : list string) (accessToken : string) :
  let run := resolveAuthenticationSession server scopes accessToken [] in
  match getLoggedInUser server with
  | ReplyOk user =>
      fst run = Returned {| id := "gitpod.user";
                            account := {| label := user_name user;
                                          account_id := user_id user |};
                            scopes := scopes;
                            accessToken := accessToken |}
      /\ In (Issue "getGitpodTokenScopes"
               [hex (SHA256.digest (utf8 accessToken))]) (snd run)
  | ReplyError message => fst run = Raised (RpcError message)
  | NoReply => fst run = Hangs
  end.
Proof.
  intros run. unfold run.
  destruct (getLoggedInUser server) as [user|message|] eqn:Huser.
  - rewrite (run_user_ok server scopes accessToken user Huser).
    split; [reflexivity|]. cbn [snd]. unfold tokenHash.
    do 3 right. left. reflexivity.
  - rewrite (run_user_error server scopes accessToken message Huser).
    reflexivity.
  - rewrite (run_user_silent server scopes accessToken Huser).
    reflexivity.
Qed.

End ValidatorFacts.

(** ** The event-to-promise adapter *)

Module AdapterFacts.
Import JS Async PromiseFromEvent.

Lemma then_jobs_app (q q' : list Job) :
  then_jobs (q ++ q') = (then_jobs q ++ then_jobs q')%list.
Proof.
  induction q as [|[s|r] q IH]; cbn [then_jobs app]; rewrite ?IH;
    reflexivity.
Qed.

Lemma Stage_init : Stage init.
Proof. apply Waiting; reflexivity. Qed.

Lemma Stage_settle (s : Settled) (st : State) :
  Stage st -> Stage (settle s st).
Proof.
  intros [Hi Hj Hp Hd Hs Hsub | s' Hi Hj Hp Hd Hs Hsub
         | s' Hi Hj Hp Hd Hs Hsub]; unfold settle; rewrite Hi.
  - apply (Settling _ s); cbn; auto.
    rewrite then_jobs_app, Hj. reflexivity.
  - apply (Settling _ s'); auto.
  - apply (Finished _ s'); auto.
Qed.

Lemma Stage_catch_job (r : Reason) (st : State) :
  Stage st ->
  Stage {| inner := inner st; subscribed := subscribed st;
           jobs := jobs st ++ [CatchJob r]; promise := promise st;
           disposals := disposals st; settlements := settlements st |}.
Proof.
  intros [Hi Hj Hp Hd Hs Hsub | s' Hi Hj Hp Hd Hs Hsub
         | s' Hi Hj Hp Hd Hs Hsub];
    [apply Waiting | apply (Settling _ s') | apply (Finished _ s')];
    cbn; auto; rewrite then_jobs_app, Hj; reflexivity.
Qed.

Lemma Stage_calls (cs : list Call) : forall st : State,
  Stage st -> Stage (fold_left do_call cs st).
Proof.
  induction cs as [|c cs IH]; intros st Hst; [exact Hst|].
  cbn [fold_left]. apply IH. destruct c; apply Stage_settle, Hst.
Qed.

Lemma Stage_listener {T} (adapter : PromiseAdapter T) (value : T)
    (st : State) :
  Stage st -> Stage (listener adapter value st).
Proof.
  intros Hst. unfold listener.
  pose proof (Stage_calls (calls (adapter value)) st Hst) as Hcalls.
  destruct (ending (adapter value)) as [|error|r].
  - exact Hcalls.
  - apply Stage_settle, Hcalls.
  - apply Stage_catch_job, Hcalls.
Qed.

Lemma Stage_step {T} (adapter : PromiseAdapter T) (st : State)
    (i : Input T) :
  Stage st -> Stage (step adapter st i).
Proof.
  intros Hst. destruct i as [value| |]; cbn [step].
  - destruct (subscribed st); [apply Stage_listener, Hst | exact Hst].
  - apply Stage_settle, Hst.
  - destruct (jobs st) as [|[s|r] q] eqn:Hq; [exact Hst| |].
    + destruct Hst as [Hi Hj Hp Hd Hs Hsub | s' Hi Hj Hp Hd Hs Hsub
                      | s' Hi Hj Hp Hd Hs Hsub];
        rewrite Hq in Hj; cbn [then_jobs] in Hj; try discriminate.
      injection Hj as -> Hj.
      apply (Finished _ s'); cbn; auto. rewrite Hp. reflexivity.
    + apply Stage_settle.
      destruct Hst as [Hi Hj Hp Hd Hs Hsub | s' Hi Hj Hp Hd Hs Hsub
                      | s' Hi Hj Hp Hd Hs Hsub];
        rewrite Hq in Hj; cbn [then_jobs] in Hj;
        [apply Waiting | apply (Settling _ s') | apply (Finished _ s')];
        cbn; auto.
Qed.

Lemma Stage_run {T} (adapter : PromiseAdapter T) (ins : list (Input T)) :
  forall st : State, Stage st -> Stage (run adapter st ins).
Proof.
  unfold run. induction ins as [|i ins IH]; intros st Hst; [exact Hst|].
  cbn [fold_left]. apply IH, Stage_step, Hst.
Qed.

Lemma Stage_ticks {T} (adapter : PromiseAdapter T) (n : nat) :
  forall st : State, Stage st -> Stage (ticks adapter n st).
Proof.
  induction n as [|n IH]; intros st Hst; [exact Hst|].
  cbn [ticks]. apply IH, Stage_step, Hst.
Qed.

(** A settled inner promise stays as it is. *)
Lemma settle_inner (s : Settled) (st : State) :
  inner (settle s st) = Some (default s (inner st)).
Proof.
  unfold settle. destruct (inner st) eqn:Hi; cbn; rewrite ?Hi; reflexivity.
Qed.

Lemma settle_settled (s s' : Settled) (st : State) :
  inner st = Some s' -> settle s st = st.
Proof. unfold settle. intros ->. reflexivity. Qed.

Lemma calls_settled (cs : list Call) (s : Settled) : forall st : State,
  inner st = Some s -> fold_left do_call cs st = st.
Proof.
  induction cs as [|c cs IH]; intros st Hst; [reflexivity|].
  cbn [fold_left].
  replace (do_call st c) with st; [apply IH, Hst|].
  destruct c; symmetry; apply (settle_settled _ s), Hst.
Qed.

(** Each queued reaction that runs takes one unit of work away. *)
Lemma tick_work {T} (adapter : PromiseAdapter T) (st : State) :
  jobs st <> [] ->
  S (pending_work (step adapter st Tick)) = pending_work st.
Proof.
  intros Hne. cbn [step]. destruct (jobs st) as [|[s|r] q] eqn:Hq;
    [congruence| |].
  - unfold pending_work. cbn. rewrite Hq. cbn. lia.
  - unfold pending_work, reject, settle. cbn [pop inner jobs].
    rewrite Hq. destruct (inner st) eqn:Hi; cbn; rewrite ?Hi.
    + lia.
    + rewrite List.length_app. cbn. lia.
Qed.

Lemma ticks_idle {T} (adapter : PromiseAdapter T) (n : nat) (st : State) :
  jobs st = [] -> ticks adapter n st = st.
Proof.
  intros Hq. induction n as [|n IH]; [reflexivity|].
  cbn [ticks step]. rewrite Hq. exact IH.
Qed.

Lemma ticks_empty {T} (adapter : PromiseAdapter T) (n : nat) :
  forall st : State,
    (pending_work st <= n)%nat -> jobs (ticks adapter n st) = [].
Proof.
  induction n as [|n IH]; intros st Hw.
  - cbn [ticks]. unfold pending_work in Hw.
    destruct (jobs st); [reflexivity | cbn in Hw; lia].
  - destruct (jobs st) as [|j q] eqn:Hq.
    + rewrite ticks_idle; assumption.
    + cbn [ticks]. apply IH.
      assert (Hne : jobs st <> []) by (rewrite Hq; discriminate).
      pose proof (tick_work adapter st Hne). lia.
Qed.

Lemma drain_empty {T} (adapter : PromiseAdapter T) (st : State) :
  jobs (drain adapter st) = [].
Proof.
  unfold drain. apply ticks_empty. unfold pending_work.
  destruct (inner st); lia.
Qed.

Lemma Stage_bounds (st : State) :
  Stage st -> (disposals st <= 1)%nat /\ (settlements st <= 1)%nat.
Proof.
  intros [Hi Hj Hp Hd Hs Hsub | s' Hi Hj Hp Hd Hs Hsub
         | s' Hi Hj Hp Hd Hs Hsub]; lia.
Qed.

Lemma Stage_quiet (st : State) :
  Stage st -> jobs st = [] ->
  match inner st with
  | Some s =>
      promise st = Some s /\ disposals st = 1%nat
      /\ settlements st = 1%nat /\ subscribed st = false
  | None =>
      promise st = None /\ disposals st = 0%nat
      /\ settlements st = 0%nat /\ subscribed st = true
  end.
Proof.
  intros [Hi Hj Hp Hd Hs Hsub | s' Hi Hj Hp Hd Hs Hsub
         | s' Hi Hj Hp Hd Hs Hsub] Hq; rewrite Hi; auto.
  rewrite Hq in Hj. discriminate.
Qed.

Lemma ticks_inner {T} (adapter : PromiseAdapter T) (n : nat) (s : Settled) :
  forall st : State,
    inner st = Some s -> inner (ticks adapter n st) = Some s.
Proof.
  induction n as [|n IH]; intros st Hst; [exact Hst|].
  cbn [ticks]. apply IH. cbn [step].
  destruct (jobs st) as [|[s'|r] q]; [exact Hst | exact Hst |].
  unfold reject. rewrite settle_inner. cbn [pop inner]. rewrite Hst.
  reflexivity.
Qed.

Lemma step_inner {T} (adapter : PromiseAdapter T) (s : Settled)
    (st : State) (i : Input T) :
  inner st = Some s -> inner (step adapter st i) = Some s.
Proof.
  intros Hst. destruct i as [value| |]; cbn [step].
  - destruct (subscribed st); [|exact Hst]. unfold listener.
    rewrite (calls_settled _ s st Hst).
    destruct (ending (adapter value)) as [|error|r]; [exact Hst| |exact Hst].
    unfold reject. rewrite (settle_settled _ s st Hst). exact Hst.
  - unfold reject. rewrite (settle_settled _ s st Hst). exact Hst.
  - destruct (jobs st) as [|[s'|r] q]; [exact Hst | exact Hst |].
    unfold reject. rewrite settle_inner. cbn [pop inner]. rewrite Hst.
    reflexivity.
Qed.

Lemma run_inner {T} (adapter : PromiseAdapter T) (s : Settled)
    (ins : list (Input T)) : forall st : State,
  inner st = Some s -> inner (run adapter st ins) = Some s.
Proof.
  unfold run. induction ins as [|i ins IH]; intros st Hst; [exact Hst|].
  cbn [fold_left]. apply IH, step_inner, Hst.
Qed.

(** An exit settles a pending adapter with its result. *)
Lemma exit_settles {T} (adapter : PromiseAdapter T) (st : State)
    (i : Input T) (s : Settled) :
  Stage st -> inner st = None -> exit_of adapter i = Some s ->
  inner (step adapter st i) = Some s.
Proof.
  intros Hst Hi Hexit.
  assert (Hsub : subscribed st = true).
  { destruct Hst as [? ? ? ? ? Hsub | s' Hs' | s' Hs']; congruence. }
  destruct i as [value| |]; cbn [step exit_of] in *; [| |discriminate].
  - rewrite Hsub. unfold listener.
    destruct (calls (adapter value)) as [|c cs].
    + destruct (ending (adapter value)) as [|error|r]; try discriminate.
      injection Hexit as <-. cbn [fold_left]. unfold reject.
      rewrite settle_inner, Hi. reflexivity.
    + assert (Hc : inner (do_call st c) = Some s).
      { destruct c as [v|r]; injection Hexit as <-; cbn [do_call];
          unfold resolve, reject; rewrite settle_inner, Hi; reflexivity. }
      cbn [fold_left]. rewrite (calls_settled cs s _ Hc).
      destruct (ending (adapter value)) as [|error|r]; [exact Hc| |exact Hc].
      unfold reject. rewrite (settle_settled _ s _ Hc). exact Hc.
  - injection Hexit as <-. unfold reject. rewrite settle_inner, Hi.
    reflexivity.
Qed.

(** Whatever happens, the subscription is never disposed and the returned
    promise never settled more than once; and once the queued reactions
    have run, an adapter that is still pending is still subscribed. *)
Lemma promiseFromEvent_invariant {T} (adapter : PromiseAdapter T)
    (ins : list (Input T)) :
  let st := run adapter init ins in
  let fin := drain adapter st in
  ((disposals st <= 1)%nat /\ (settlements st <= 1)%nat)
  /\ jobs fin = []
  /\ match inner fin with
     | Some s =>
         promise fin = Some s /\ disposals fin = 1%nat
         /\ settlements fin = 1%nat /\ subscribed fin = false
     | None =>
         promise fin = None /\ disposals fin = 0%nat
         /\ settlements fin = 0%nat /\ subscribed fin = true
     end.
Proof.
  intros st fin.
  assert (Hst : Stage st) by apply Stage_run, Stage_init.
  assert (Hfin : Stage fin) by apply Stage_ticks, Hst.
  assert (Hq : jobs fin = []) by apply drain_empty.
  split; [apply Stage_bounds, Hst|].
  split; [exact Hq|]. apply Stage_quiet; assumption.
Qed.

(** C9: take any adapter, any history [before] that leaves it pending, any
    exit (a first [resolve] of the adapter, a first [reject] or a throw of
    the adapter, a cancellation) and anything [after] it. At no time is the
    subscription disposed or the returned promise settled more than once;
    and once the queued reactions have run, the returned promise has been
    settled once, with the result of that exit, the subscription has been
    disposed once and is no longer live, and no reaction is left. *)
Theorem promiseFromEvent_exactly_once {T} (adapter : PromiseAdapter T)
    (before after : list (Input T)) (exit : Input T) (s : Settled) :
  inner (run adapter init before) = None ->
  exit_of adapter exit = Some s ->
  let st := run adapter init (before ++ exit :: after) in
  let fin := drain adapter st in
  ((disposals st <= 1)%nat /\ (settlements st <= 1)%nat)
  /\ promise fin = Some s
  /\ disposals fin = 1%nat /\ settlements fin = 1%nat
  /\ subscribed fin = false /\ jobs fin = [].
Proof.
  intros Hpending Hexit st fin.
  assert (Hbefore : Stage (run adapter init before))
    by apply Stage_run, Stage_init.
  assert (Hst : Stage st) by apply Stage_run, Stage_init.
  assert (Hfin : Stage fin) by apply Stage_ticks, Hst.
  assert (Hq : jobs fin = []) by apply drain_empty.
  assert (Hinner : inner fin = Some s).
  { apply ticks_inner. unfold st, run. rewrite fold_left_app.
    cbn [fold_left]. apply (run_inner adapter s after).
    apply exit_settles; assumption. }
  pose proof (Stage_quiet fin Hfin Hq) as Hquiet. rewrite Hinner in Hquiet.
  destruct Hquiet as (Hp & Hd & Hs & Hsub).
  split; [apply Stage_bounds, Hst|]. auto.
Qed.

(** A cancellation before an event and a second cancellation. *)
Lemma promiseFromEvent_exactly_once_witness :
  let st := run passthrough init ([] ++ Cancel :: [Emit (JString "a"); Cancel])
  in
  let fin := drain passthrough st in
  ((disposals st <= 1)%nat /\ (settlements st <= 1)%nat)
  /\ promise fin = Some (Rejected (Thrown JUndefined))
  /\ disposals fin = 1%nat /\ settlements fin = 1%nat
  /\ subscribed fin = false /\ jobs fin = [].
Proof.
  apply (promiseFromEvent_exactly_once passthrough []
           [Emit (JString "a"); Cancel] Cancel (Rejected (Thrown JUndefined)));
    reflexivity.
Defined.

(** The exits on concrete runs. *)
Example exit_by_resolve :
  let fin := drain passthrough (run passthrough init [Emit (JString "a")]) in
  promise fin = Some (Fulfilled (JString "a"))
  /\ disposals fin = 1%nat /\ settlements fin = 1%nat.
Proof. vm_compute. auto. Qed.

Example exit_by_reject :
  let adapter : PromiseAdapter JSValue :=
    fun _ => {| calls := [CallReject TypeError; CallResolve JNull];
                ending := Returns |} in
  let fin := drain adapter (run adapter init [Emit JNull; Emit JNull]) in
  promise fin = Some (Rejected TypeError)
  /\ disposals fin = 1%nat /\ settlements fin = 1%nat.
Proof. vm_compute. auto. Qed.

Example exit_by_rejected_promise :
  let adapter : PromiseAdapter JSValue :=
    fun _ => {| calls := []; ending := ReturnsRejected TypeError |} in
  let fin := drain adapter (run adapter init [Emit JNull]) in
  promise fin = Some (Rejected TypeError)
  /\ disposals fin = 1%nat /\ settlements fin = 1%nat.
Proof. vm_compute. auto. Qed.

Example exit_by_cancel :
  let fin := drain passthrough
               (run passthrough init [Cancel; Emit (JString "a"); Cancel]) in
  promise fin = Some (Rejected (Thrown JUndefined))
  /\ disposals fin = 1%nat /\ settlements fin = 1%nat.
Proof. vm_compute. auto. Qed.

Example exit_by_throw :
  let adapter : PromiseAdapter JSValue :=
    fun _ => {| calls := []; ending := Throws TypeError |} in
  let fin := drain adapter
               (run adapter init [Emit JNull; Tick; Emit JNull; Cancel]) in
  promise fin = Some (Rejected TypeError)
  /\ disposals fin = 1%nat /\ settlements fin = 1%nat.
Proof. vm_compute. auto. Qed.

End AdapterFacts.

(** ** The wait on the secret store and [createSession] *)

Module ProviderFacts.
Import JS Async PromiseFromEvent Provider Inputs.

(** Once decided, the outcome of the wait no longer changes. *)
Lemma wait_step_decided (w : Wait) (i : WaitInput) :
  outcome w <> StillWaiting -> outcome (wait_step w i) = outcome w.
Proof.
  intros Hw. destruct i as [op| |]; cbn [wait_step];
    destruct (outcome w) eqn:Ho; try congruence; cbn [outcome];
    rewrite ?Ho; reflexivity.
Qed.

Lemma wait_decided (ins : list WaitInput) : forall w : Wait,
  outcome w <> StillWaiting ->
  outcome (fold_left wait_step ins w) = outcome w.
Proof.
  induction ins as [|i ins IH]; intros w Hw; [reflexivity|].
  cbn [fold_left]. rewrite IH.
  - apply wait_step_decided, Hw.
  - rewrite wait_step_decided; assumption.
Qed.

(** The store follows the changes, whatever else happens. *)
Lemma wait_secrets (ins : list WaitInput) : forall w : Wait,
  secrets (fold_left wait_step ins w)
  = fold_left (fun s op => apply_op op s) (changes_of ins) (secrets w).
Proof.
  induction ins as [|i ins IH]; intros w; [reflexivity|].
  cbn [fold_left]. rewrite IH. destruct i as [op| |].
  - reflexivity.
  - cbn [wait_step changes_of flat_map app].
    destruct (outcome w) eqn:Ho; [|reflexivity|reflexivity].
    destruct (reading w) eqn:Hr; [reflexivity|].
    destruct (promise _) as [[[]|]|]; reflexivity.
  - cbn [wait_step changes_of flat_map app].
    destruct (outcome w) eqn:Ho; [|reflexivity|reflexivity].
    destruct (reading w) eqn:Hr; reflexivity.
Qed.

(** The first change, seen by the adapter, and the turn it ends. *)
Lemma first_change_settling (key : string) :
  step authAdapter init (Emit key) = settling (first_result key).
Proof.
  cbn [step init subscribed]. unfold listener, authAdapter, first_result.
  destruct (String.eqb key authSessionKey); reflexivity.
Qed.

Lemma change_settling (s : Settled) (key : string) :
  step authAdapter (settling s) (Emit key) = settling s.
Proof.
  cbn [step settling subscribed]. unfold listener, authAdapter.
  destruct (String.eqb key authSessionKey); reflexivity.
Qed.

Lemma drain_settling (s : Settled) :
  drain authAdapter (settling s) = finished s.
Proof. reflexivity. Qed.

Lemma change_finished (s : Settled) (key : string) :
  step authAdapter (finished s) (Emit key) = finished s.
Proof. reflexivity. Qed.

Lemma drain_finished (s : Settled) :
  drain authAdapter (finished s) = finished s.
Proof. reflexivity. Qed.

(** While the turn of the first change lasts, further changes call the
    adapter and change nothing of it. *)
Lemma same_turn (s : Settled) (pre : list WaitInput) : forall w : Wait,
  forallb (fun i => negb (is_reactions i)) pre = true ->
  adapter_state w = settling s -> outcome w = StillWaiting ->
  reading w = false ->
  adapter_state (fold_left wait_step pre w) = settling s
  /\ outcome (fold_left wait_step pre w) = StillWaiting
  /\ reading (fold_left wait_step pre w) = false.
Proof.
  induction pre as [|i pre IH]; intros w Hpre Hst Ho Hr; [auto|].
  cbn [forallb] in Hpre. apply andb_true_iff in Hpre as [Hi Hpre].
  cbn [fold_left]. apply IH; [exact Hpre| | |];
    destruct i as [op| |]; try discriminate Hi; cbn [wait_step];
    rewrite ?Ho, ?Hr; cbn [adapter_state outcome reading];
    rewrite ?Hst, ?change_settling; auto.
Qed.

(** After the turn, with the read asked for, nothing matters until the
    store answers. *)
Lemma until_read (s : Settled) (mid : list WaitInput) : forall w : Wait,
  forallb (fun i => negb (is_read i)) mid = true ->
  adapter_state w = finished s -> outcome w = StillWaiting ->
  reading w = true ->
  adapter_state (fold_left wait_step mid w) = finished s
  /\ outcome (fold_left wait_step mid w) = StillWaiting
  /\ reading (fold_left wait_step mid w) = true.
Proof.
  induction mid as [|i mid IH]; intros w Hmid Hst Ho Hr; [auto|].
  cbn [forallb] in Hmid. apply andb_true_iff in Hmid as [Hi Hmid].
  cbn [fold_left]. apply IH; [exact Hmid| | |];
    destruct i as [op| |]; try discriminate Hi; cbn [wait_step];
    rewrite ?Ho, ?Hr; cbn [adapter_state outcome reading];
    rewrite ?Hst, ?change_finished, ?drain_finished; auto.
Qed.

(** The state at the end of the turn of the first change. *)
Lemma end_of_turn (store : gmap string string) (op : SecretOp)
    (pre : list WaitInput) :
  forallb (fun i => negb (is_reactions i)) pre = true ->
  let w := waitForAuthenticationSession store (Change op :: pre ++ [Reactions])
  in
  adapter_state w = finished (first_result (op_key op))
  /\ (if String.eqb (op_key op) authSessionKey
      then outcome w = StillWaiting /\ reading w = true
      else outcome w = Rejects (Thrown (JString "Cancelled"))).
Proof.
  intros Hpre w. unfold w, waitForAuthenticationSession.
  cbn [fold_left]. rewrite fold_left_app. cbn [fold_left].
  set (w1 := wait_step _ (Change op)).
  destruct (same_turn (first_result (op_key op)) pre w1 Hpre)
    as (Hst & Ho & Hr); try reflexivity.
  { unfold w1. cbn [wait_step adapter_state].
    apply first_change_settling. }
  set (w2 := fold_left wait_step pre w1) in *.
  cbn [wait_step]. rewrite Ho, Hr. cbn [adapter_state].
  rewrite Hst, drain_settling. cbn [finished promise].
  unfold first_result.
  destruct (String.eqb (op_key op) authSessionKey); cbn; auto.
Qed.

(** C8: the first change of the secret store decides the wait. Until
    the reactions of its turn have run the wait is pending, whatever else
    changes in that turn. If the key of that first change is not
    [gitpod.authSession], the wait is then rejected with ['Cancelled'],
    whatever follows. If it is, the adapter is resolved, the stored record
    is asked for, and when the store answers, the record as it then stands
    (after every change that came in the meantime) is parsed: the wait
    resolves with the parsed value, or rejects with the parse error. *)
Theorem waitForAuthenticationSession_first_change
    (store : gmap string string) (op : SecretOp)
    (pre mid post : list WaitInput) :
  forallb (fun i => negb (is_reactions i)) pre = true ->
  forallb (fun i => negb (is_read i)) mid = true ->
  outcome (waitForAuthenticationSession store (Change op :: pre))
  = StillWaiting
  /\ (if String.eqb (op_key op) authSessionKey
      then
        outcome (waitForAuthenticationSession store
                   (Change op :: pre ++ Reactions :: mid))
        = StillWaiting
        /\ outcome (waitForAuthenticationSession store
                      (Change op :: pre ++ Reactions :: mid
                       ++ ReadServed :: post))
           = match JSON_parse
                     (or_else (store_after store (Change op :: pre ++ mid)
                               !! authSessionKey) "") with
             | Normal session => Resolves session
             | Throw r => Rejects r
             end
      else
        outcome (waitForAuthenticationSession store
                   (Change op :: pre ++ Reactions :: post))
        = Rejects (Thrown (JString "Cancelled"))).
Proof.
  intros Hpre Hmid. split.
  - unfold waitForAuthenticationSession. cbn [fold_left].
    set (w1 := wait_step _ (Change op)).
    destruct (same_turn (first_result (op_key op)) pre w1 Hpre)
      as (_ & Ho & _); try reflexivity; [|exact Ho].
    unfold w1. cbn [wait_step adapter_state]. apply first_change_settling.
  - pose proof (end_of_turn store op pre Hpre) as Hturn. cbn zeta in Hturn.
    assert (Hsplit : forall rest,
      waitForAuthenticationSession store (Change op :: pre ++ Reactions :: rest)
      = fold_left wait_step rest
          (waitForAuthenticationSession store (Change op :: pre ++ [Reactions]))).
    { intros rest. unfold waitForAuthenticationSession.
      rewrite <- fold_left_app. f_equal. cbn [app]. f_equal.
      rewrite <- app_assoc. reflexivity. }
    set (w2 := waitForAuthenticationSession store
                 (Change op :: pre ++ [Reactions])) in *.
    assert (Hsec : secrets w2 = store_after store (Change op :: pre)).
    { unfold w2, waitForAuthenticationSession, store_after.
      rewrite wait_secrets. cbn [secrets]. f_equal.
      unfold changes_of. cbn [flat_map]. rewrite flat_map_app.
      cbn [flat_map app]. rewrite app_nil_r. reflexivity. }
    destruct Hturn as [Hst Hcase].
    destruct (String.eqb (op_key op) authSessionKey).
    + destruct Hcase as [Ho Hr].
      destruct (until_read _ mid w2 Hmid Hst Ho Hr) as (Hst3 & Ho3 & Hr3).
      split; [rewrite Hsplit; exact Ho3|].
      rewrite Hsplit, fold_left_app. cbn [fold_left].
      set (w3 := fold_left wait_step mid w2) in *.
      rewrite wait_decided.
      * cbn [wait_step]. rewrite Ho3, Hr3. cbn [outcome]. unfold retrieve.
        replace (secrets w3)
          with (store_after store (Change op :: pre ++ mid)); [reflexivity|].
        unfold w3. rewrite wait_secrets, Hsec. unfold store_after.
        rewrite <- fold_left_app. f_equal.
        unfold changes_of. cbn [flat_map]. rewrite flat_map_app.
        rewrite app_assoc. reflexivity.
      * cbn [wait_step]. rewrite Ho3, Hr3. cbn [outcome]. unfold retrieve.
        destruct (JSON_parse _); discriminate.
    + rewrite Hsplit, wait_decided; rewrite Hcase; [reflexivity|discriminate].
Qed.

(** A record stored and removed again in the turn of the first change:
    the wait reads the store after both, and rejects. *)
Lemma waitForAuthenticationSession_first_change_witness :
  outcome (waitForAuthenticationSession ∅
             (Change (Store authSessionKey sessionText)
              :: [Change (Delete authSessionKey)]))
  = StillWaiting
  /\ (if String.eqb (op_key (Store authSessionKey sessionText)) authSessionKey
      then
        outcome (waitForAuthenticationSession ∅
                   (Change (Store authSessionKey sessionText)
                    :: [Change (Delete authSessionKey)] ++ Reactions :: []))
        = StillWaiting
        /\ outcome (waitForAuthenticationSession ∅
                      (Change (Store authSessionKey sessionText)
                       :: [Change (Delete authSessionKey)] ++ Reactions :: []
                       ++ ReadServed :: [Change (Store "other" "x")]))
           = match JSON_parse
                     (or_else (store_after ∅
                                 (Change (Store authSessionKey sessionText)
                                  :: [Change (Delete authSessionKey)] ++ [])
                               !! authSessionKey) "") with
             | Normal session => Resolves session
             | Throw r => Rejects r
             end
      else
        outcome (waitForAuthenticationSession ∅
                   (Change (Store authSessionKey sessionText)
                    :: [Change (Delete authSessionKey)] ++ Reactions
                    :: [Change (Store "other" "x")]))
        = Rejects (Thrown (JString "Cancelled"))).
Proof.
  apply (waitForAuthenticationSession_first_change ∅
           (Store authSessionKey sessionText)
           [Change (Delete authSessionKey)] [] [Change (Store "other" "x")]);
    reflexivity.
Defined.

(** The cases on concrete stores. *)
Example wait_resolves :
  outcome (waitForAuthenticationSession ∅
             [Change (Store authSessionKey sessionText); Reactions;
              Change (Store "other" "x"); ReadServed])
  = Resolves session.
Proof. vm_compute. reflexivity. Qed.

Example wait_cancelled :
  outcome (waitForAuthenticationSession ∅
             [Change (Store "other" "x");
              Change (Store authSessionKey sessionText); Reactions;
              ReadServed])
  = Rejects (Thrown (JString "Cancelled")).
Proof. vm_compute. reflexivity. Qed.

Example wait_store_then_delete :
  outcome (waitForAuthenticationSession ∅
             [Change (Store authSessionKey sessionText);
              Change (Delete authSessionKey); Reactions; ReadServed])
  = Rejects SyntaxError.
Proof. vm_compute. reflexivity. Qed.

Example wait_last_write_wins :
  outcome (waitForAuthenticationSession ∅
             [Change (Store authSessionKey "{}"); Reactions;
              Change (Store authSessionKey sessionText); ReadServed])
  = Resolves session.
Proof. vm_compute. reflexivity. Qed.

(** [Promise.race] on promises only: the first to settle wins. *)
Example race_of_promises :
  Promise_race 5%N
    [OfPromise (rejectAfter 0%N 300000%N 0%N (Thrown (JString "late")));
     OfPromise (Some (100%N, Fulfilled session))]
  = Some (100%N, Fulfilled session)
  /\ Promise_race 5%N
       [OfPromise (rejectAfter 0%N 300000%N 0%N (Thrown (JString "late")));
        OfPromise None]
     = Some (300000%N, Rejected (Thrown (JString "late"))).
Proof. vm_compute. auto. Qed.

(** C1, the defect: [createSession] hands [Promise.race] the function
    [waitForAuthenticationSession] itself, not the promise of a call to
    it. Whatever happens to the secret store, the race is settled as soon
    as [openExternal] has resolved: with that function as its value, or
    with the timeout if the five minutes are already over by then. *)
Theorem createSession_settles_at_once (r : Run) :
  snd (createSession r)
  = Some ((start r + openExternal_delay r)%N,
          if (openExternal_delay r <? 300000 + timer_lag r)%N
          then Fulfilled (JFunction "waitForAuthenticationSession")
          else Rejected (Thrown (JString "Login timed out."))).
Proof.
  unfold createSession. cbn [snd].
  unfold Promise_race, rejectAfter.
  cbn [map fold_right Promise_resolve earlier].
  change (1000 * 60 * 5)%N with 300000%N.
  destruct (N.ltb_spec (openExternal_delay r) (300000 + timer_lag r))
    as [Hlt|Hge].
  - rewrite N.max_l by lia.
    destruct (N.leb_spec (start r + openExternal_delay r)
                         (start r + openExternal_delay r));
      [|lia].
    destruct (N.leb_spec (start r + 300000 + timer_lag r)
                         (start r + openExternal_delay r));
      [lia | reflexivity].
  - rewrite N.max_r by lia.
    destruct (N.leb_spec (start r + openExternal_delay r)
                         (start r + openExternal_delay r));
      [|lia].
    reflexivity.
Qed.

(** With a session stored after 100 ms, [createSession] has resolved
    after 5 ms with the function, not with the session; with no login at
    all it resolves just the same instead of timing out. *)
Example createSession_loginRun :
  snd (createSession loginRun)
  = Some (5%N, Fulfilled (JFunction "waitForAuthenticationSession"))
  /\ outcome (waitForAuthenticationSession (store0 loginRun)
                (flat_map (fun c => [Change (snd c); Reactions; ReadServed])
                          (changes loginRun)))
     = Resolves session.
Proof. vm_compute. auto. Qed.

Example createSession_idleRun :
  snd (createSession idleRun)
  = Some (5%N, Fulfilled (JFunction "waitForAuthenticationSession")).
Proof. vm_compute. reflexivity. Qed.

End ProviderFacts.

(** * Further properties *)

(** ** The PKCE pair *)

Module PKCEShape.
Import JS Buffer Provider Text BufferFacts SHA256Facts PKCEFacts.

Lemma is_b64_char_b64 (z : Z) : 0 <= z < 64 -> is_b64_char (b64_char z) = true.
Proof.
  assert (Hall : b64_all_in_alphabet = true) by (vm_compute; reflexivity).
  unfold b64_all_in_alphabet in Hall. rewrite forallb_forall in Hall.
  intros Hz. pattern z. apply (Z_below_cases _ 64); [|lia].
  intros i Hi. apply Hall, in_seq. lia.
Qed.

Lemma is_b64_char_sextet (k n : Z) : is_b64_char (sextet k n) = true.
Proof. unfold sextet. apply is_b64_char_b64, Z.mod_pos_bound. lia. Qed.

(** The base64 text of 32 bytes: 43 characters of the alphabet, then [=]. *)
Lemma base64_32_shape (l : list byte) :
  List.length l = 32%nat ->
  String.length (base64 l) = 44%nat
  /\ String.get 43 (base64 l) = Some "="%char
  /\ string_forall is_b64_char (String.substring 0 43 (base64 l)) = true.
Proof.
  intros Hl.
  do 32 (destruct l as [|? l]; [simpl in Hl; lia|]).
  destruct l; [|simpl in Hl; lia].
  cbn [base64 String.length String.get String.substring string_forall].
  rewrite !is_b64_char_sextet. repeat split; reflexivity.
Qed.

Lemma randomBytes_ext (n : nat) (e e' : nat -> byte) :
  randomBytes n e = randomBytes n e' <-> forall i, (i < n)%nat -> e i = e' i.
Proof.
  unfold randomBytes. rewrite map_ext_in_iff. split.
  - intros H i Hi. apply H, in_seq. lia.
  - intros H i Hi. apply in_seq in Hi. apply H. lia.
Qed.

(** X1: two calls of the generator return the same verifier exactly when
    they read the same 32 bytes from the entropy source; nothing of the
    random draw is lost in the verifier. *)
Theorem generatePKCE_verifier_injective (e e' : nat -> byte) :
  codeVerifier (generatePKCE e) = codeVerifier (generatePKCE e')
  <-> forall i, (i < 32)%nat -> e i = e' i.
Proof.
  rewrite <- randomBytes_ext. cbn [generatePKCE codeVerifier]. split.
  - apply (base64_inj_same_length 32); apply randomBytes_length.
  - intros ->. reflexivity.
Qed.

(** X2: for every entropy source, the verifier and the challenge are both
    44 characters long: 43 characters of the standard base64 alphabet
    (letters, digits, [+] and [/]) followed by one padding [=]. *)
Theorem generatePKCE_shape (entropy : nat -> byte) :
  let pair := generatePKCE entropy in
  (String.length (codeVerifier pair) = 44%nat
   /\ String.get 43 (codeVerifier pair) = Some "="%char
   /\ string_forall is_b64_char
        (String.substring 0 43 (codeVerifier pair)) = true)
  /\ (String.length (codeChallenge pair) = 44%nat
      /\ String.get 43 (codeChallenge pair) = Some "="%char
      /\ string_forall is_b64_char
           (String.substring 0 43 (codeChallenge pair)) = true).
Proof.
  intros pair. split.
  - apply base64_32_shape, randomBytes_length.
  - apply base64_32_shape, digest_length.
Qed.

End PKCEShape.

(** ** Scope checks on any stored value *)

Module ScopeFacts.
Import JS Provider Removal Inputs SessionFacts.

Lemma every_true {A} (f : A -> Completion bool) (l : list A) :
  every f l = Normal true <-> Forall (fun x => f x = Normal true) l.
Proof.
  induction l as [|x r IH]; cbn [every].
  - split; [constructor | reflexivity].
  - rewrite Forall_cons_iff, <- IH.
    destruct (f x) as [[|]|e]; cbn [mbind completion_bind];
      intuition congruence.
Qed.

Lemma prefix_app (x s : string) :
  String.prefix x s = true <-> exists post, s = x ++ post.
Proof.
  revert s. induction x as [|c x IH]; intros s.
  - split; [exists s; reflexivity | destruct s; reflexivity].
  - destruct s as [|d s]; cbn [String.prefix].
    + split; [discriminate | intros [post H]; discriminate H].
    + destruct (ascii_dec c d) as [->|Hne].
      * rewrite IH. split; intros [post H]; exists post.
        -- cbn. rewrite H. reflexivity.
        -- cbn in H. injection H as H. exact H.
      * split; [discriminate|]. intros [post H]. cbn in H.
        injection H as H _. congruence.
Qed.

(** [contains x s] holds exactly when [x] occurs in [s]. *)
Lemma contains_substring (x s : string) :
  contains x s = true <-> exists pre post, s = pre ++ x ++ post.
Proof.
  induction s as [|d s IH]; cbn [contains].
  - rewrite orb_false_r, prefix_app. split.
    + intros [post H]. exists "", post. exact H.
    + intros (pre & post & H). destruct pre; [|discriminate H].
      exists post. exact H.
  - rewrite orb_true_iff, prefix_app, IH. split.
    + intros [[post H] | (pre & post & H)].
      * exists "", post. exact H.
      * exists (String d pre), post. cbn. rewrite H. reflexivity.
    + intros (pre & post & H). destruct pre as [|c pre].
      * left. exists post. exact H.
      * right. exists pre, post. cbn in H. injection H as _ H. exact H.
Qed.

(** X3: if a session value passes [hasScopes] for a request, it passes for
    every request made of scopes of that one, in any order and with any
    repetition; dropping requested scopes never loses the session. This
    holds for every value of the session, well formed or not. *)
Theorem hasScopes_subrequest (session : JSValue)
    (requested smaller : list string) :
  smaller ⊆ requested ->
  hasScopes session (Some requested) = Normal true ->
  hasScopes session (Some smaller) = Normal true.
Proof.
  intros Hsub. cbn [hasScopes]. rewrite !every_true, !List.Forall_forall.
  intros H x Hx. apply H. apply list_elem_of_In, Hsub, list_elem_of_In, Hx.
Qed.

Lemma hasScopes_subrequest_witness :
  hasScopes session (Some ["s2"; "s2"]) = Normal true.
Proof.
  apply (hasScopes_subrequest session ["s1"; "s2"] ["s2"; "s2"]).
  - intros x Hx. apply list_elem_of_In in Hx. apply list_elem_of_In.
    cbn in *. intuition.
  - vm_compute. reflexivity.
Defined.

(** X4: when the [scopes] of the stored value is one string and not an
    array, [hasScopes] tests each requested scope as a substring of that
    string ([String.prototype.includes]): the result is true exactly when
    every requested scope occurs somewhere in it. *)
Theorem hasScopes_string_scopes (session : JSValue) (granted : string)
    (requested : list string) :
  get_prop session "scopes" = Normal (JString granted) ->
  hasScopes session (Some requested)
  = Normal (forallb (fun scope => contains scope granted) requested)
  /\ (hasScopes session (Some requested) = Normal true
      <-> forall scope, In scope requested ->
            exists pre post, granted = pre ++ scope ++ post).
Proof.
  intros Hget.
  assert (Heq : hasScopes session (Some requested)
                = Normal (forallb (fun scope => contains scope granted)
                                  requested)).
  { cbn [hasScopes]. rewrite Hget. cbn [mbind completion_bind includes].
    induction requested as [|x r IH]; [reflexivity|].
    cbn [every forallb mbind completion_bind]. rewrite IH.
    destruct (contains x granted); [|reflexivity].
    reflexivity. }
  split; [exact Heq|]. rewrite Heq. split.
  - intros H scope Hin. injection H as H. rewrite forallb_forall in H.
    apply contains_substring, H, Hin.
  - intros H. f_equal. apply forallb_forall. intros scope Hin.
    apply contains_substring, H, Hin.
Qed.

Lemma hasScopes_string_scopes_witness :
  hasScopes (JObject [("scopes", JString "resource:default")])
            (Some ["default"])
  = Normal (forallb (fun scope => contains scope "resource:default")
                    ["default"])
  /\ (hasScopes (JObject [("scopes", JString "resource:default")])
                (Some ["default"]) = Normal true
      <-> forall scope, In scope ["default"] ->
            exists pre post, "resource:default" = pre ++ scope ++ post).
Proof.
  apply (hasScopes_string_scopes
           (JObject [("scopes", JString "resource:default")])
           "resource:default" ["default"]).
  reflexivity.
Defined.

(** X5: when the stored text parses to a value that has no [scopes]
    property, or to [null], [getSessions] with a non-empty scope array
    does not return an empty result: it rejects with a [TypeError]. *)
Theorem getSessions_malformed_record (secrets : gmap string string)
    (text : string) (session : JSValue) (requested : list string) :
  secrets !! authSessionKey = Some text ->
  JSON_parse text = Normal session ->
  session = JNull \/ get_prop session "scopes" = Normal JUndefined ->
  requested <> [] ->
  getSessions secrets (Some requested) = Throw TypeError.
Proof.
  intros Hget Hparse Hbad Hne. unfold getSessions.
  rewrite Hget, or_else_some, Hparse.
  destruct requested as [|x r]; [congruence|].
  cbn [mbind completion_bind app JS.filter hasScopes every].
  destruct Hbad as [-> | ->]; reflexivity.
Qed.

Lemma getSessions_malformed_record_witness :
  getSessions {[ authSessionKey := "{}" ]} (Some ["s1"]) = Throw TypeError.
Proof.
  apply (getSessions_malformed_record _ "{}" (JObject []) ["s1"]).
  - apply lookup_singleton_eq.
  - vm_compute. reflexivity.
  - right. reflexivity.
  - discriminate.
Defined.

(** X6: whatever the store holds and whatever is requested, a result of
    [getSessions] holds at most one session, and that session is the value
    the text stored under [gitpod.authSession] parses to. *)
Theorem getSessions_at_most_one (secrets : gmap string string)
    (scopes : option (list string)) (result : list JSValue) :
  getSessions secrets scopes = Normal result ->
  result = []
  \/ exists session,
       result = [session]
       /\ JSON_parse (or_else (secrets !! authSessionKey) "")
          = Normal session.
Proof.
  unfold getSessions. destruct scopes as [requested|].
  - destruct (JSON_parse _) as [session|r]; [|discriminate].
    cbn [mbind completion_bind app JS.filter].
    destruct (hasScopes session (Some requested)) as [[|]|r];
      cbn [mbind completion_bind]; intros H; [| |discriminate];
      injection H as <-; [right; exists session; auto | left; reflexivity].
  - intros H. injection H as <-. left. reflexivity.
Qed.

Lemma getSessions_at_most_one_witness :
  [session] = []
  \/ exists s,
       [session] = [s]
       /\ JSON_parse (or_else (stored !! authSessionKey) "") = Normal s.
Proof.
  apply (getSessions_at_most_one stored (Some ["s1"]) [session]).
  vm_compute. reflexivity.
Defined.

(** X7: after [removeSession], [getSessions] with any scope array rejects
    with a [SyntaxError] (it does not return an empty result), and returns
    an empty result without one; the other secrets are left as they were,
    and removing twice is removing once. *)
Theorem removeSession_then_getSessions (secrets : gmap string string)
    (requested : list string) :
  getSessions (removeSession secrets) (Some requested) = Throw SyntaxError
  /\ getSessions (removeSession secrets) None = Normal []
  /\ (forall key, String.eqb key authSessionKey = false ->
        removeSession secrets !! key = secrets !! key)
  /\ removeSession (removeSession secrets) = removeSession secrets.
Proof.
  unfold removeSession. repeat split.
  - unfold getSessions. rewrite lookup_delete_eq. reflexivity.
  - intros key Hkey. apply lookup_delete_ne.
    intros <-. rewrite String.eqb_refl in Hkey. discriminate.
  - apply delete_delete_eq.
Qed.

End ScopeFacts.

(** ** More on the event-to-promise adapter *)

Module AdapterMore.
Import JS Async PromiseFromEvent Trace AdapterFacts.

Lemma Stage_finished (st : State) (s : Settled) :
  Stage st -> jobs st = [] -> inner st = Some s ->
  promise st = Some s /\ disposals st = 1%nat /\ settlements st = 1%nat
  /\ subscribed st = false.
Proof.
  intros Hst Hq Hi. pose proof (Stage_quiet st Hst Hq) as H.
  rewrite Hi in H. exact H.
Qed.

(** A finished adapter no longer reacts to anything. *)
Lemma step_finished {T} (adapter : PromiseAdapter T) (st : State)
    (s : Settled) (i : Input T) :
  inner st = Some s -> jobs st = [] -> subscribed st = false ->
  step adapter st i = st.
Proof.
  intros Hi Hq Hsub. destruct i as [value| |]; cbn [step].
  - rewrite Hsub. reflexivity.
  - unfold reject. apply (settle_settled _ s), Hi.
  - rewrite Hq. reflexivity.
Qed.

(** X10: once the adapter is settled and
    its reactions have run, no event, cancellation or reaction changes
    anything: the adapter function is not called again, the subscription
    is not disposed a second time, the result stays. *)
Theorem promiseFromEvent_finished_is_final {T} (adapter : PromiseAdapter T)
    (ins : list (Input T)) (s : Settled) (i : Input T) :
  inner (drain adapter (run adapter init ins)) = Some s ->
  step adapter (drain adapter (run adapter init ins)) i
  = drain adapter (run adapter init ins).
Proof.
  intros Hi.
  assert (Hst : Stage (drain adapter (run adapter init ins)))
    by apply Stage_ticks, Stage_run, Stage_init.
  pose proof (drain_empty adapter (run adapter init ins)) as Hq.
  destruct (Stage_finished _ s Hst Hq Hi) as (_ & _ & _ & Hsub).
  apply (step_finished adapter _ s); assumption.
Qed.

Lemma promiseFromEvent_finished_is_final_witness :
  step passthrough (drain passthrough (run passthrough init [Cancel]))
       (Emit (JString "late"))
  = drain passthrough (run passthrough init [Cancel]).
Proof.
  apply (promiseFromEvent_finished_is_final passthrough [Cancel]
           (Rejected (Thrown JUndefined)) (Emit (JString "late"))).
  reflexivity.
Defined.

(** X11: an adapter that neither resolves nor rejects, and returns, is
    called on every event and leaves everything as it was: as long as
    nobody cancels, the promise stays pending, the subscription stays
    live and is never disposed, however many events fire. *)
Theorem promiseFromEvent_passive_adapter {T} (adapter : PromiseAdapter T)
    (ins : list (Input T)) :
  (forall value, adapter value = {| calls := []; ending := Returns |}) ->
  forallb (fun i => negb (is_cancel i)) ins = true ->
  run adapter init ins = init.
Proof.
  intros Hpassive. unfold run.
  induction ins as [|i ins IH]; [reflexivity|].
  cbn [forallb fold_left]. intros Hno.
  apply andb_true_iff in Hno as [Hi Hno].
  replace (step adapter init i) with init; [exact (IH Hno)|].
  destruct i as [value| |]; [|discriminate Hi|reflexivity].
  cbn [step init subscribed]. unfold listener. rewrite Hpassive. reflexivity.
Qed.

Lemma promiseFromEvent_passive_adapter_witness :
  run (fun _ : JSValue => {| calls := []; ending := Returns |}) init
      [Emit JNull; Tick; Emit (JString "a")]
  = init.
Proof.
  apply (promiseFromEvent_passive_adapter
           (fun _ : JSValue => {| calls := []; ending := Returns |})
           [Emit JNull; Tick; Emit (JString "a")]);
    reflexivity.
Defined.

(** X12: with the default adapter, [passthrough], the returned promise
    resolves with the value of the first event that fires, whatever fires
    or is cancelled afterwards, and the subscription is disposed once. *)
Theorem promiseFromEvent_passthrough_first_event (value : JSValue)
    (rest : list (Input JSValue)) :
  let fin := drain passthrough (run passthrough init (Emit value :: rest)) in
  promise fin = Some (Fulfilled value)
  /\ disposals fin = 1%nat /\ settlements fin = 1%nat
  /\ subscribed fin = false.
Proof.
  intros fin.
  assert (Hst : Stage fin) by apply Stage_ticks, Stage_run, Stage_init.
  assert (Hq : jobs fin = []) by apply drain_empty.
  apply (Stage_finished fin (Fulfilled value) Hst Hq).
  apply ticks_inner. unfold run. cbn [fold_left].
  apply (run_inner passthrough (Fulfilled value) rest). reflexivity.
Qed.

(** X13: when the adapter makes no call and returns a promise that is
    rejected, the [catch(reject)] of the listener rejects the returned
    promise with that reason when the queued reactions run, and the
    subscription is disposed once. *)
Theorem promiseFromEvent_rejected_adapter_promise {T}
    (adapter : PromiseAdapter T) (before : list (Input T)) (value : T)
    (r : Reason) :
  inner (run adapter init before) = None ->
  jobs (run adapter init before) = [] ->
  adapter value = {| calls := []; ending := ReturnsRejected r |} ->
  let fin := drain adapter
               (step adapter (run adapter init before) (Emit value)) in
  promise fin = Some (Rejected r)
  /\ disposals fin = 1%nat /\ settlements fin = 1%nat
  /\ subscribed fin = false /\ jobs fin = [].
Proof.
  intros Hi Hq Hrun fin.
  assert (Hbefore : Stage (run adapter init before))
    by apply Stage_run, Stage_init.
  assert (Hst : Stage fin) by apply Stage_ticks, Stage_step, Hbefore.
  assert (Hfq : jobs fin = []) by apply drain_empty.
  assert (Hsub : subscribed (run adapter init before) = true).
  { destruct Hbefore as [? ? ? ? ? Hsub | s' Hs' | s' Hs']; congruence. }
  assert (Hfi : inner fin = Some (Rejected r)).
  { assert (Hemit : step adapter (run adapter init before) (Emit value)
      = {| inner := None; subscribed := true; jobs := [CatchJob r];
           promise := promise (run adapter init before);
           disposals := disposals (run adapter init before);
           settlements := settlements (run adapter init before) |}).
    { cbn [step]. rewrite Hsub. unfold listener. rewrite Hrun.
      cbn [calls ending fold_left]. rewrite Hi, Hsub, Hq. reflexivity. }
    unfold fin, drain. rewrite Hemit. cbn [jobs List.length ticks].
    apply step_inner. cbn [step jobs]. unfold reject.
    rewrite settle_inner. reflexivity. }
  destruct (Stage_finished fin _ Hst Hfq Hfi) as (Hp & Hd & Hs & Hsb).
  auto.
Qed.

Lemma promiseFromEvent_rejected_adapter_promise_witness :
  let adapter : PromiseAdapter JSValue :=
    fun _ => {| calls := []; ending := ReturnsRejected TypeError |} in
  let fin := drain adapter (step adapter (run adapter init []) (Emit JNull)) in
  promise fin = Some (Rejected TypeError)
  /\ disposals fin = 1%nat /\ settlements fin = 1%nat
  /\ subscribed fin = false /\ jobs fin = [].
Proof.
  apply (promiseFromEvent_rejected_adapter_promise
           (fun _ : JSValue =>
              {| calls := []; ending := ReturnsRejected TypeError |})
           [] JNull TypeError); reflexivity.
Defined.

End AdapterMore.

(** ** More on the wait and on the validator *)

Module WaitMore.
Import JS Async PromiseFromEvent Provider AdapterFacts AdapterMore
  ProviderFacts.

(** A finished adapter stays finished, whatever happens to the wait. *)
Lemma stays_finished (s : Settled) (ins : list WaitInput) : forall w : Wait,
  adapter_state w = finished s ->
  adapter_state (fold_left wait_step ins w) = finished s.
Proof.
  induction ins as [|i ins IH]; intros w Hst; [exact Hst|].
  cbn [fold_left]. apply IH. destruct i as [op| |]; cbn [wait_step].
  - cbn [adapter_state]. rewrite Hst. apply change_finished.
  - destruct (outcome w) eqn:Ho; cbn [adapter_state];
      rewrite ?Hst, ?drain_finished; try reflexivity.
    destruct (reading w) eqn:Hr; cbn [adapter_state finished promise];
      rewrite ?Hst, ?drain_finished; try reflexivity.
    destruct s as [[]|r]; cbn [resume adapter_state]; rewrite ?Hst;
      reflexivity.
  - destruct (outcome w) eqn:Ho; [|exact Hst|exact Hst].
    destruct (reading w) eqn:Hr; [exact Hst | exact Hst].
Qed.

(** X8: the first change decides the adapter of the wait. For the rest of
    its turn the listener is still subscribed (the subscription is
    disposed by a queued reaction): further changes in that turn call the
    adapter, and change nothing of its result. When the turn ends the
    subscription has been disposed exactly once, and no later change
    reaches the adapter; the store itself follows every change. *)
Theorem waitForAuthenticationSession_one_change
    (store : gmap string string) (op : SecretOp)
    (pre post : list WaitInput) :
  forallb (fun i => negb (is_reactions i)) pre = true ->
  let during := adapter_state
                  (waitForAuthenticationSession store (Change op :: pre)) in
  let w := waitForAuthenticationSession store
             (Change op :: pre ++ Reactions :: post) in
  (inner during = Some (first_result (op_key op))
   /\ subscribed during = true /\ disposals during = 0%nat)
  /\ (promise (adapter_state w) = Some (first_result (op_key op))
      /\ subscribed (adapter_state w) = false
      /\ disposals (adapter_state w) = 1%nat
      /\ jobs (adapter_state w) = [])
  /\ secrets w = store_after store (Change op :: pre ++ post).
Proof.
  intros Hpre during w. split; [|split].
  - unfold during, waitForAuthenticationSession. cbn [fold_left].
    set (w1 := wait_step _ (Change op)).
    destruct (same_turn (first_result (op_key op)) pre w1 Hpre)
      as (Hst & _ & _); try reflexivity.
    { unfold w1. cbn [wait_step adapter_state].
      apply first_change_settling. }
    rewrite Hst. repeat split; reflexivity.
  - destruct (end_of_turn store op pre Hpre) as [Hst _].
    assert (Hw : adapter_state w = finished (first_result (op_key op))).
    { unfold w, waitForAuthenticationSession.
      replace (Change op :: pre ++ Reactions :: post)
        with ((Change op :: pre ++ [Reactions]) ++ post)%list
        by (cbn [app]; rewrite <- app_assoc; reflexivity).
      rewrite fold_left_app. apply stays_finished, Hst. }
    rewrite Hw. repeat split; reflexivity.
  - unfold w, waitForAuthenticationSession, store_after.
    rewrite wait_secrets. cbn [secrets]. f_equal.
    unfold changes_of. cbn [flat_map]. rewrite !flat_map_app.
    reflexivity.
Qed.

Lemma waitForAuthenticationSession_one_change_witness :
  let during := adapter_state
                  (waitForAuthenticationSession ∅
                     (Change (Store "other" "x")
                      :: [Change (Store authSessionKey "{}")])) in
  let w := waitForAuthenticationSession ∅
             (Change (Store "other" "x")
              :: [Change (Store authSessionKey "{}")] ++ Reactions
              :: [Change (Delete "other")]) in
  (inner during = Some (first_result (op_key (Store "other" "x")))
   /\ subscribed during = true /\ disposals during = 0%nat)
  /\ (promise (adapter_state w)
      = Some (first_result (op_key (Store "other" "x")))
      /\ subscribed (adapter_state w) = false
      /\ disposals (adapter_state w) = 1%nat
      /\ jobs (adapter_state w) = [])
  /\ secrets w
     = store_after ∅ (Change (Store "other" "x")
                      :: [Change (Store authSessionKey "{}")]
                      ++ [Change (Delete "other")]).
Proof.
  apply (waitForAuthenticationSession_one_change ∅ (Store "other" "x")
           [Change (Store authSessionKey "{}")] [Change (Delete "other")]).
  reflexivity.
Defined.

End WaitMore.

Module ValidatorMore.
Import JS Buffer Text Validator Trace BufferFacts SHA256Facts ValidatorFacts.

(** X14: the transport is closed exactly when a session is returned, and in
    every run the log is orderly: the transport is opened first and once,
    every awaited answer follows its call, and nothing happens on the
    transport after it was closed. *)
Theorem resolveAuthenticationSession_orderly (server : Server)
    (scopes : list string) (accessToken : string) :
  let run := resolveAuthenticationSession server scopes accessToken [] in
  orderly (snd run) = true
  /\ opens (snd run) = 1%nat
  /\ closes (snd run) = match fst run with
                        | Returned _ => 1%nat
                        | _ => 0%nat
                        end.
Proof.
  intros run. unfold run.
  destruct (getLoggedInUser server) as [user|message|] eqn:Huser.
  - rewrite (run_user_ok server scopes accessToken user Huser).
    repeat split; reflexivity.
  - rewrite (run_user_error server scopes accessToken message Huser).
    repeat split; reflexivity.
  - rewrite (run_user_silent server scopes accessToken Huser).
    repeat split; reflexivity.
Qed.

Lemma is_hex_char_digit (z : Z) : 0 <= z < 16 -> is_hex_char (hex_digit z) = true.
Proof.
  assert (Hall : hex_all_digits = true) by (vm_compute; reflexivity).
  unfold hex_all_digits in Hall. rewrite forallb_forall in Hall.
  intros Hz. pattern z. apply (Z_below_cases _ 16); [|lia].
  intros i Hi. apply Hall, in_seq. lia.
Qed.

Lemma hex_shape (l : list byte) :
  String.length (hex l) = (2 * List.length l)%nat
  /\ string_forall is_hex_char (hex l) = true.
Proof.
  induction l as [|b l [IHlen IHall]]; [split; reflexivity|].
  cbn [hex String.length List.length string_forall].
  pose proof (byte_val_range b) as Hb.
  rewrite IHlen, IHall, !is_hex_char_digit.
  - split; [lia | reflexivity].
  - apply Z.mod_pos_bound. lia.
  - split; [apply Z.div_pos; lia | apply Z.div_lt_upper_bound; lia].
Qed.

(** X15: the hash handed to [getGitpodTokenScopes] is, for every access token
    (the empty one included), a text of 64 lowercase hexadecimal digits. *)
Theorem tokenHash_shape (server : Server) (scopes : list string)
    (accessToken : string) (user : User) :
  getLoggedInUser server = ReplyOk user ->
  let hash := hex (SHA256.digest (utf8 accessToken)) in
  In (Issue "getGitpodTokenScopes" [hash])
     (snd (resolveAuthenticationSession server scopes accessToken []))
  /\ String.length hash = 64%nat
  /\ string_forall is_hex_char hash = true.
Proof.
  intros Huser hash.
  rewrite (run_user_ok server scopes accessToken user Huser).
  destruct (hex_shape (SHA256.digest (utf8 accessToken))) as [Hlen Hall].
  rewrite digest_length in Hlen.
  split; [cbn [snd]; do 3 right; left; reflexivity|].
  split; assumption.
Qed.

Lemma tokenHash_shape_witness :
  let hash := hex (SHA256.digest (utf8 "")) in
  In (Issue "getGitpodTokenScopes" [hash])
     (snd (resolveAuthenticationSession Inputs.okServer [] "" []))
  /\ String.length hash = 64%nat
  /\ string_forall is_hex_char hash = true.
Proof.
  apply (tokenHash_shape Inputs.okServer [] "" Inputs.ann). reflexivity.
Defined.

End ValidatorMore.

(** ** The query of the authorization URL *)

Module QueryFacts.
Import Provider Query.

Lemma get_remove_all_other (name other : string) (q : Params) :
  String.eqb other name = false ->
  get other (remove_all name q) = get other q.
Proof.
  intros Hne. induction q as [|[n v] r IH]; [reflexivity|].
  cbn [remove_all List.filter fst get]. fold (remove_all name r).
  destruct (String.eqb_spec n name) as [->|Hn]; cbn [negb get].
  - rewrite String.eqb_sym, Hne. exact IH.
  - rewrite IH. reflexivity.
Qed.

Lemma get_set_same (name value : string) (q : Params) :
  get name (set name value q) = Some value.
Proof.
  induction q as [|[n v] r IH]; cbn [set get].
  - rewrite String.eqb_refl. reflexivity.
  - destruct (String.eqb n name) eqn:Hn; cbn [get]; rewrite Hn;
      [reflexivity | exact IH].
Qed.

Lemma get_set_other (name other value : string) (q : Params) :
  String.eqb other name = false ->
  get other (set name value q) = get other q.
Proof.
  intros Hne. induction q as [|[n v] r IH]; cbn [set get].
  - rewrite String.eqb_sym, Hne. reflexivity.
  - destruct (String.eqb_spec n name) as [->|Hn]; cbn [get].
    + rewrite String.eqb_sym, Hne. apply get_remove_all_other, Hne.
    + rewrite IH. reflexivity.
Qed.

Lemma count_remove_all_same (name : string) (q : Params) :
  count name (remove_all name q) = 0%nat.
Proof.
  unfold count. induction q as [|[n v] r IH]; [reflexivity|].
  cbn [remove_all List.filter fst]. fold (remove_all name r).
  destruct (String.eqb n name) eqn:Hn; cbn [negb]; [exact IH|].
  cbn [List.filter fst]. rewrite Hn. exact IH.
Qed.

Lemma count_remove_all_other (name other : string) (q : Params) :
  String.eqb other name = false ->
  count other (remove_all name q) = count other q.
Proof.
  intros Hne. unfold count. induction q as [|[n v] r IH]; [reflexivity|].
  cbn [remove_all List.filter fst]. fold (remove_all name r).
  destruct (String.eqb_spec n name) as [->|Hn]; cbn [negb].
  - rewrite String.eqb_sym, Hne. exact IH.
  - cbn [List.filter fst]. destruct (String.eqb n other);
      cbn [List.length]; rewrite IH; reflexivity.
Qed.

Lemma count_set_same (name value : string) (q : Params) :
  count name (set name value q) = 1%nat.
Proof.
  induction q as [|[n v] r IH]; cbn [set].
  - unfold count. cbn. rewrite String.eqb_refl. reflexivity.
  - destruct (String.eqb n name) eqn:Hn.
    + unfold count. cbn [List.filter fst]. rewrite Hn. cbn [List.length].
      fold (count name (remove_all name r)).
      rewrite count_remove_all_same. reflexivity.
    + unfold count in *. cbn [List.filter fst]. rewrite Hn. exact IH.
Qed.

Lemma count_set_other (name other value : string) (q : Params) :
  String.eqb other name = false ->
  count other (set name value q) = count other q.
Proof.
  intros Hne. induction q as [|[n v] r IH]; cbn [set].
  - unfold count. cbn [List.filter fst]. rewrite String.eqb_sym, Hne.
    reflexivity.
  - destruct (String.eqb_spec n name) as [->|Hn].
    + unfold count. cbn [List.filter fst]. rewrite String.eqb_sym, Hne.
      apply (count_remove_all_other name other r Hne).
    + unfold count in *. cbn [List.filter fst].
      destruct (String.eqb n other); cbn [List.length]; rewrite IH;
        reflexivity.
Qed.

Lemma remove_all_idem (name : string) (q : Params) :
  remove_all name (remove_all name q) = remove_all name q.
Proof.
  unfold remove_all. induction q as [|[n v] r IH]; [reflexivity|].
  cbn [List.filter fst]. destruct (String.eqb n name) eqn:Hn; cbn [negb].
  - exact IH.
  - cbn [List.filter fst]. rewrite Hn. cbn [negb]. rewrite IH. reflexivity.
Qed.

Lemma remove_all_set (name value : string) (q : Params) :
  remove_all name (set name value q) = remove_all name q.
Proof.
  induction q as [|[n v] r IH]; cbn [set].
  - unfold remove_all. cbn. rewrite String.eqb_refl. reflexivity.
  - destruct (String.eqb n name) eqn:Hn.
    + unfold remove_all at 1 3. cbn [List.filter fst]. rewrite Hn.
      cbn [negb]. apply remove_all_idem.
    + unfold remove_all in *. cbn [List.filter fst]. rewrite Hn.
      cbn [negb]. rewrite IH. reflexivity.
Qed.

Lemma remove_all_comm (a b : string) (q : Params) :
  remove_all a (remove_all b q) = remove_all b (remove_all a q).
Proof.
  unfold remove_all. induction q as [|[n v] r IH]; [reflexivity|].
  cbn [List.filter fst].
  destruct (String.eqb n a) eqn:Ha; destruct (String.eqb n b) eqn:Hb;
    cbn [negb List.filter fst]; rewrite ?Ha, ?Hb; cbn [negb];
    rewrite ?IH; reflexivity.
Qed.

(** X16: whatever query the OAuth client built (also one that already holds
    PKCE parameters, once or several times), the query of the URL that is
    opened holds [code_challenge] exactly once, with the challenge of the
    generated pair, and [code_challenge_method] exactly once, with [S256];
    all other parameters are kept, in their order. *)
Theorem secureQuery_parameters (search : Params) (entropy : nat -> byte) :
  let codePair := generatePKCE entropy in
  let q := secureQuery search codePair in
  get "code_challenge" q = Some (codeChallenge codePair)
  /\ count "code_challenge" q = 1%nat
  /\ get "code_challenge_method" q = Some "S256"
  /\ count "code_challenge_method" q = 1%nat
  /\ remove_all "code_challenge_method" (remove_all "code_challenge" q)
     = remove_all "code_challenge_method" (remove_all "code_challenge" search).
Proof.
  intros codePair q. unfold q, secureQuery.
  split; [rewrite get_set_other by reflexivity; apply get_set_same|].
  split; [rewrite count_set_other by reflexivity; apply count_set_same|].
  split; [apply get_set_same|].
  split; [apply count_set_same|].
  rewrite remove_all_comm, remove_all_set, remove_all_comm, remove_all_set.
  reflexivity.
Qed.

End QueryFacts.

(** ** Settings *)

Module SettingsFacts.
Import JS Validator Settings MoreInputs.

Lemma lookup_absent (k : string) (props : list (string * JSValue)) :
  ~ In k (map fst props) -> lookup_prop k props = JUndefined.
Proof.
  induction props as [|[k' v'] r IH]; [reflexivity|].
  cbn [map fst In lookup_prop]. intros Hout.
  rewrite IH by tauto.
  destruct (String.eqb_spec k k') as [->|Hne]; [tauto | reflexivity].
Qed.

Lemma put_keys (k : string) (v : JSValue) (props : list (string * JSValue)) :
  forall x, In x (map fst (put k v props)) <-> x = k \/ In x (map fst props).
Proof.
  intros x. induction props as [|[k' v'] r IH]; cbn [put map fst In].
  - intuition congruence.
  - destruct (String.eqb_spec k' k) as [->|Hne]; cbn [map fst In].
    + intuition congruence.
    + rewrite IH. intuition congruence.
Qed.

Lemma put_NoDup (k : string) (v : JSValue) (props : list (string * JSValue)) :
  List.NoDup (map fst props) -> List.NoDup (map fst (put k v props)).
Proof.
  induction props as [|[k' v'] r IH]; cbn [put map fst]; intros Hnd.
  - constructor; [intros [] | constructor].
  - inversion Hnd as [|? ? Hout Hr]; subst.
    destruct (String.eqb_spec k' k) as [->|Hne]; cbn [map fst].
    + constructor; assumption.
    + constructor; [|apply IH, Hr].
      rewrite put_keys. intros [->|Hin]; [congruence | tauto].
Qed.

Lemma own_props_NoDup (props : list (string * JSValue)) :
  List.NoDup (map fst (own_props props)).
Proof.
  unfold own_props.
  assert (H : forall acc, List.NoDup (map fst acc) ->
            List.NoDup (map fst (fold_left
              (fun acc kv => put (fst kv) (snd kv) acc) props acc))).
  { induction props as [|kv r IH]; intros acc Hacc; [exact Hacc|].
    cbn [fold_left]. apply IH, put_NoDup, Hacc. }
  apply H. constructor.
Qed.

Lemma lookup_put_same (k : string) (v : JSValue)
    (props : list (string * JSValue)) :
  List.NoDup (map fst props) -> lookup_prop k (put k v props) = v.
Proof.
  induction props as [|[k' v'] r IH]; cbn [put map fst]; intros Hnd.
  - cbn [lookup_prop]. rewrite String.eqb_refl. reflexivity.
  - inversion Hnd as [|? ? Hout Hr]; subst.
    destruct (String.eqb_spec k' k) as [->|Hne]; cbn [lookup_prop].
    + rewrite (lookup_absent k r Hout), String.eqb_refl. reflexivity.
    + rewrite (IH Hr).
      destruct (String.eqb_spec k k') as [->|_]; [congruence|].
      destruct v; reflexivity.
Qed.

Lemma remove_key_put (k : string) (v : JSValue)
    (props : list (string * JSValue)) :
  remove_key k (put k v props) = remove_key k props.
Proof.
  unfold remove_key. induction props as [|[k' v'] r IH]; cbn [put].
  - cbn. rewrite String.eqb_refl. reflexivity.
  - destruct (String.eqb k' k) eqn:Hk; cbn [List.filter fst]; rewrite Hk;
      cbn [negb]; [reflexivity | rewrite IH; reflexivity].
Qed.

Lemma remove_key_idem (k : string) (props : list (string * JSValue)) :
  remove_key k (remove_key k props) = remove_key k props.
Proof.
  unfold remove_key. induction props as [|[k' v'] r IH]; [reflexivity|].
  cbn [List.filter fst]. destruct (String.eqb k' k) eqn:Hk; cbn [negb].
  - exact IH.
  - cbn [List.filter fst]. rewrite Hk. cbn [negb]. rewrite IH. reflexivity.
Qed.

Lemma lookup_remove_key (k : string) (props : list (string * JSValue)) :
  lookup_prop k (remove_key k props) = JUndefined.
Proof.
  apply lookup_absent. unfold remove_key. rewrite in_map_iff.
  intros ([k' v'] & Hk & Hin). apply filter_In in Hin as [_ Hne].
  cbn [fst] in *. subst k'. rewrite String.eqb_refl in Hne. discriminate.
Qed.

Lemma insert_index_perm (n : N) (kv : string * JSValue)
    (l : list (N * (string * JSValue))) :
  Permutation (map snd (insert_index n kv l)) (kv :: map snd l).
Proof.
  induction l as [|[m x] r IH]; cbn [insert_index map snd]; [reflexivity|].
  destruct (n <=? m)%N; cbn [map snd]; [reflexivity|].
  rewrite IH. apply perm_swap.
Qed.

(** Listing the properties moves them, and loses or adds none. *)
Lemma enumerate_perm (props : list (string * JSValue)) :
  Permutation (enumerate props) props.
Proof.
  unfold enumerate. induction props as [|kv r IH]; [reflexivity|].
  cbn [index_entries fold_right List.filter]. unfold is_name at 1.
  fold (index_entries r).
  destruct (index_of (fst kv)) as [n|].
  - rewrite insert_index_perm. cbn [app]. apply perm_skip, IH.
  - rewrite <- Permutation_middle. apply perm_skip, IH.
Qed.

Lemma normalize_object_NoDup (parsed : JSValue)
    (props : list (string * JSValue)) :
  normalize parsed = JObject props -> List.NoDup (map fst props).
Proof.
  destruct parsed; cbn [normalize]; try discriminate.
  intros H. injection H as <-.
  eapply Permutation_NoDup; [|apply own_props_NoDup].
  apply Permutation_map. symmetry. apply enumerate_perm.
Qed.

(** Array indices come first, in ascending order, whatever the order of
    the text. *)
Example normalize_order :
  JSON_parse (dq "{'b': 1, '10': 2, 'a': 3, '2': 4, 'b': 5, '02': 6}")
  = Normal (JObject [("b", JNumber "1"); ("10", JNumber "2");
                     ("a", JNumber "3"); ("2", JNumber "4");
                     ("b", JNumber "5"); ("02", JNumber "6")])
  /\ normalize (JObject [("b", JNumber "1"); ("10", JNumber "2");
                         ("a", JNumber "3"); ("2", JNumber "4");
                         ("b", JNumber "5"); ("02", JNumber "6")])
     = JObject [("2", JNumber "4"); ("10", JNumber "2");
                ("b", JNumber "5"); ("a", JNumber "3");
                ("02", JNumber "6")].
Proof. vm_compute. auto. Qed.

(** X17: [addAuthProviderToSettings] never rejects. It asks for one update of
    [configurationSync.store], with the value that [manuallyWriteConfig]
    stores for the same URL; the window is reloaded exactly when that
    update succeeded and the user chose [Reload], and an error message is
    shown exactly when the update failed. *)
Theorem addAuthProviderToSettings_effects (update_error : option string)
    (selected : option string) :
  let run := addAuthProviderToSettings update_error selected in
  fst run = Normal tt
  /\ (exists rest,
        snd run
        = ConfigUpdate "configurationSync.store"
            (manualStoreConfig
               "https://server-vscode-ouath2.staging.gitpod-dev.com/code-sync")
            true :: rest
        /\ forall section value global,
             ~ In (ConfigUpdate section value global) rest)
  /\ (In (ExecuteCommand "workbench.action.reloadWindow") (snd run)
      <-> update_error = None /\ selected = Some "Reload")
  /\ (forall message,
        In (ShowErrorMessage message) (snd run)
        <-> exists e, update_error = Some e
                      /\ message = "Erorr setting up code sync config: " ++ e).
Proof.
  intros run. unfold run, addAuthProviderToSettings. cbn [fst snd].
  split; [reflexivity|]. split; [|split].
  - eexists. split; [reflexivity|].
    intros section value global.
    destruct update_error as [e|]; cbn [promptToReload In].
    + intuition discriminate.
    + destruct selected as [choice|]; [destruct (String.eqb choice "Reload")|];
        cbn [In]; intuition discriminate.
  - destruct update_error as [e|]; cbn [promptToReload In].
    + intuition discriminate.
    + destruct selected as [choice|].
      * destruct (String.eqb_spec choice "Reload") as [->|Hne]; cbn [In].
        -- intuition.
        -- intuition (discriminate || congruence).
      * cbn [In]. intuition discriminate.
  - intros message. destruct update_error as [e|]; cbn [promptToReload In].
    + split.
      * intros [H|[H|[]]]; [discriminate H|]. injection H as <-.
        exists e. auto.
      * intros (e' & He & ->). injection He as <-. auto.
    + split; [|intros (e' & He & _); discriminate He].
      destruct selected as [choice|]; [destruct (String.eqb choice "Reload")|];
        cbn [In]; intuition discriminate.
Qed.

(** X18: when the settings file cannot be read, or its text is not JSON (a
    comment is enough), or it is [null], [manuallyWriteConfig] rejects;
    no file is written and no message is shown. *)
Theorem manuallyWriteConfig_rejects_cleanly (JSON_stringify : JSValue -> string)
    (h : Host) (syncStoreURL : string) (remove : option bool) :
  files h !! configFile h = None
  \/ (exists text, files h !! configFile h = Some text
        /\ (JSON_parse text = Throw SyntaxError
            \/ JSON_parse text = Normal JNull)) ->
  let out := manuallyWriteConfig JSON_stringify h syncStoreURL remove in
  (exists r, result out = Throw r) /\ disk out = files h /\ shown out = [].
Proof.
  intros Hbad out. unfold out, manuallyWriteConfig.
  destruct Hbad as [-> | (text & -> & [-> | ->])].
  - cbn. eauto.
  - cbn. eauto.
  - destruct remove as [[|]|]; cbn; eauto.
Qed.

Lemma manuallyWriteConfig_rejects_cleanly_witness :
  let out := manuallyWriteConfig printer commentedHost "https://x" None in
  (exists r, result out = Throw r)
  /\ disk out = files commentedHost /\ shown out = [].
Proof.
  apply (manuallyWriteConfig_rejects_cleanly printer commentedHost
           "https://x" None).
  right. exists "// my settings {}". split.
  - vm_compute. reflexivity.
  - left. vm_compute. reflexivity.
Defined.

(** X19: when the settings are an object and writing the file fails,
    [manuallyWriteConfig] still resolves and shows the failure in one
    error message; no other file changes. The settings file is left as it
    was only when it could not be opened: when the error comes during the
    write, the file holds what was written so far of the text that a
    write without failure leaves there, and the old settings are gone. *)
Theorem manuallyWriteConfig_write_failure (JSON_stringify : JSValue -> string)
    (h : Host) (syncStoreURL : string) (remove : option bool)
    (text : string) (fault : WriteFault) (props : list (string * JSValue)) :
  files h !! configFile h = Some text ->
  JSON_parse text = Normal (JObject props) ->
  write_error h = Some fault ->
  let out := manuallyWriteConfig JSON_stringify h syncStoreURL remove in
  result out = Normal tt
  /\ shown out
     = [ShowErrorMessage ("Error writing file: " ++ fault_text fault)]
  /\ (forall path, String.eqb path (configFile h) = false ->
        disk out !! path = files h !! path)
  /\ match fault with
     | OpenFails _ => disk out !! configFile h = Some text
     | WriteFails _ written =>
         exists data,
           disk (manuallyWriteConfig JSON_stringify (writable h)
                   syncStoreURL remove) !! configFile h = Some data
           /\ disk out !! configFile h
              = Some (String.substring 0 written data)
     end.
Proof.
  intros Hread Hparse Hwrite out. unfold out, manuallyWriteConfig.
  change (configFile (writable h)) with (configFile h).
  cbn [writable files write_error].
  rewrite Hread, Hparse. cbn [normalize].
  assert (Hother : forall data path,
    String.eqb path (configFile h) = false ->
    <[configFile h := data]> (files h) !! path = files h !! path).
  { intros data path Hne. apply lookup_insert_ne. intros Heq.
    rewrite Heq, String.eqb_refl in Hne. discriminate. }
  destruct remove as [[|]|]; cbn [assign delete_prop]; rewrite Hwrite;
    cbn [result shown disk];
    (split; [reflexivity|]); (split; [reflexivity|]);
    destruct fault as [err|err written]; cbn [disk];
    (split; [auto|]); try exact Hread;
    eexists; split; apply lookup_insert_eq.
Qed.

Lemma manuallyWriteConfig_write_failure_witness :
  let h := plainHost (Some (WriteFails "ENOSPC" 5)) in
  let out := manuallyWriteConfig printer h "https://x" None in
  result out = Normal tt
  /\ shown out
     = [ShowErrorMessage
          ("Error writing file: " ++ fault_text (WriteFails "ENOSPC" 5))]
  /\ (forall path, String.eqb path (configFile h) = false ->
        disk out !! path = files h !! path)
  /\ exists data,
       disk (manuallyWriteConfig printer (writable h) "https://x" None)
         !! configFile h = Some data
       /\ disk out !! configFile h = Some (String.substring 0 5 data).
Proof.
  apply (manuallyWriteConfig_write_failure printer
           (plainHost (Some (WriteFails "ENOSPC" 5)))
           "https://x" None settingsText (WriteFails "ENOSPC" 5)
           settingsParsed).
  - vm_compute. reflexivity.
  - vm_compute. reflexivity.
  - reflexivity.
Defined.

(** X20: when the settings are an object and the file can be written,
    [manuallyWriteConfig] rewrites that one file with the print of an
    object in which [configurationSync.store] holds the new configuration
    (or is absent, on [remove]) and every other setting is kept, with its
    value and in the place where the parsed object lists it (array
    indices first, in ascending order, then the other names in the order
    of the text); no other file changes. *)
Theorem manuallyWriteConfig_one_setting (JSON_stringify : JSValue -> string)
    (h : Host) (syncStoreURL : string) (remove : option bool)
    (text : string) (parsed : JSValue) (props : list (string * JSValue)) :
  files h !! configFile h = Some text ->
  JSON_parse text = Normal parsed ->
  normalize parsed = JObject props ->
  write_error h = None ->
  let out := manuallyWriteConfig JSON_stringify h syncStoreURL remove in
  exists updated,
    result out = Normal tt /\ shown out = []
    /\ disk out = <[configFile h := JSON_stringify (JObject updated)]> (files h)
    /\ lookup_prop storeKey updated
       = match remove with
         | Some true => JUndefined
         | _ => manualStoreConfig syncStoreURL
         end
    /\ remove_key storeKey updated = remove_key storeKey props.
Proof.
  intros Hread Hparse Hnorm Hwrite out. unfold out, manuallyWriteConfig.
  rewrite Hread, Hparse, Hnorm.
  pose proof (normalize_object_NoDup parsed props Hnorm) as Hnd.
  assert (Hset : exists updated,
    assign (JObject props) storeKey (manualStoreConfig syncStoreURL)
    = Normal (JObject updated)
    /\ lookup_prop storeKey updated = manualStoreConfig syncStoreURL
    /\ remove_key storeKey updated = remove_key storeKey props).
  { eexists. split; [reflexivity|]. split.
    - apply lookup_put_same, Hnd.
    - apply remove_key_put. }
  destruct remove as [[|]|].
  - exists (remove_key storeKey props). cbn [delete_prop]. rewrite Hwrite.
    repeat split; [apply lookup_remove_key | apply remove_key_idem].
  - destruct Hset as (updated & -> & Hl & Hr). exists updated.
    rewrite Hwrite. repeat split; assumption.
  - destruct Hset as (updated & -> & Hl & Hr). exists updated.
    rewrite Hwrite. repeat split; assumption.
Qed.

Lemma manuallyWriteConfig_one_setting_witness :
  let out := manuallyWriteConfig printer (plainHost None) "https://x" None in
  exists updated,
    result out = Normal tt /\ shown out = []
    /\ disk out
       = <[configFile (plainHost None) := printer (JObject updated)]>
           (files (plainHost None))
    /\ lookup_prop storeKey updated = manualStoreConfig "https://x"
    /\ remove_key storeKey updated = remove_key storeKey settingsProps.
Proof.
  apply (manuallyWriteConfig_one_setting printer (plainHost None)
           "https://x" None settingsText (JObject settingsParsed)
           settingsProps).
  - vm_compute. reflexivity.
  - vm_compute. reflexivity.
  - vm_compute. reflexivity.
  - reflexivity.
Defined.

End SettingsFacts.

(** ** From the wait to [getSessions] *)

Module LoginFacts.
Import JS Async PromiseFromEvent Provider Inputs SessionFacts ProviderFacts.

(** A wait that resolved did so when the store answered its read, with
    the parse of the record as it stood then. *)
Lemma wait_resolves_inv (store : gmap string string) (ins : list WaitInput)
    (session : JSValue) :
  outcome (waitForAuthenticationSession store ins) = Resolves session ->
  exists before after,
    ins = (before ++ ReadServed :: after)%list
    /\ retrieve (store_after store before) = Resolves session.
Proof.
  induction ins as [|i l IH] using rev_ind; [discriminate|].
  unfold waitForAuthenticationSession in *. rewrite fold_left_app.
  cbn [fold_left]. set (w := fold_left wait_step l _) in *.
  destruct (outcome w) as [|s'|r] eqn:Ho.
  - destruct i as [op| |]; cbn [wait_step]; rewrite ?Ho.
    + cbn [outcome]. rewrite ?Ho. discriminate.
    + destruct (reading w) eqn:Hr;
        [cbn [outcome]; rewrite ?Ho; discriminate|].
      destruct (promise _) as [[[]|]|];
        cbn [resume outcome]; rewrite ?Ho; discriminate.
    + destruct (reading w) eqn:Hr; [|rewrite ?Ho; discriminate].
      cbn [outcome]. intros H. exists l, []. split; [reflexivity|].
      rewrite <- H. f_equal. unfold w, store_after.
      rewrite wait_secrets. reflexivity.
  - pose proof (wait_step_decided w i) as Hd. rewrite Ho in Hd.
    rewrite Hd by discriminate.
    intros H. destruct (IH H) as (before & after & -> & Hread).
    exists before, (after ++ [i])%list. split; [|exact Hread].
    rewrite <- app_assoc. reflexivity.
  - pose proof (wait_step_decided w i) as Hd. rewrite Ho in Hd.
    rewrite Hd by discriminate. discriminate.
Qed.

(** X9: whatever happened during a wait that resolved, the session it
    resolved with is the session that [getSessions] reports on the store
    as it stood when the read of the wait was answered, for every request
    that the scopes of that session cover. *)
Theorem wait_then_getSessions (store : gmap string string)
    (ins : list WaitInput) (session : JSValue)
    (granted requested : list string) :
  outcome (waitForAuthenticationSession store ins) = Resolves session ->
  get_prop session "scopes" = Normal (JArray (map JString granted)) ->
  requested ⊆ granted ->
  exists before after,
    ins = (before ++ ReadServed :: after)%list
    /\ getSessions (store_after store before) (Some requested)
       = Normal [session].
Proof.
  intros Hwait Hscopes Hsub.
  destruct (wait_resolves_inv store ins session Hwait)
    as (before & after & Hins & Hread).
  exists before, after. split; [exact Hins|].
  unfold retrieve in Hread. unfold getSessions.
  destruct (JSON_parse _) as [s|r]; [|discriminate].
  injection Hread as ->.
  cbn [mbind completion_bind app JS.filter].
  rewrite (hasScopes_array _ _ _ Hscopes).
  rewrite bool_decide_eq_true_2 by exact Hsub. reflexivity.
Qed.

Lemma wait_then_getSessions_witness :
  exists before after,
    [Change (Store authSessionKey "{}"); Reactions;
     Change (Store authSessionKey sessionText); ReadServed;
     Change (Delete authSessionKey)]
    = (before ++ ReadServed :: after)%list
    /\ getSessions (store_after ∅ before) (Some ["s2"]) = Normal [session].
Proof.
  apply (wait_then_getSessions ∅
           [Change (Store authSessionKey "{}"); Reactions;
            Change (Store authSessionKey sessionText); ReadServed;
            Change (Delete authSessionKey)]
           session ["s1"; "s2"] ["s2"]).
  - vm_compute. reflexivity.
  - reflexivity.
  - intros x Hx. apply list_elem_of_In in Hx. apply list_elem_of_In.
    cbn in *. intuition.
Defined.

End LoginFacts.
